(** * mini-zk-evm-rollup: batch orchestration and state-commitment pipeline

    A shallow embedding of the TypeScript core
    ([core/batch-processor], [core/state-manager], [core/proof-generator],
    [core/sequencer]) together with the properties the design document
    states about it.

    Conventions of the embedding.
    - A JavaScript [number] that holds a count, an index or a gas amount is a
      [Z].  Sums of such amounts are taken exactly.  A product is rounded to
      the nearest double, as the language does ([JS.mul]): it is exact up to
      2^53 and loses its low bits beyond.  Where the source only compares a
      number, and so also lets through the values that are no integer, the
      comparison is modelled on [JS.number] ([RawIntake]).
    - A JavaScript [string] is a [string]; [===] on strings is [=].
    - [Map<K,V>] is [gmap K V], [Set<string>] is [gset string], arrays are
      lists.
    - A rejected promise or a thrown exception is the left injection of a
      sum; the collaborators (settlement ledger, prover) are values supplied
      by the environment.
    - An [async] function is cut at its [await]s: the synchronous prefix and
      each continuation are separate state transformers, so that the
      interleavings the event loop allows can be written down.
    - Log output is not part of the state. *)

From Stdlib Require Import ZArith QArith Qround Qminmax Sorted.
From stdpp Require Import base gmap strings list pretty.

Close Scope Q_scope.
Open Scope Z_scope.

(** ** Shared data model ([core/types]) *)

Module Types.

Record Transaction := mkTransaction {
  from : string;
  to : string;
  value : string;
  data : string;
  nonce : Z;
  gasLimit : Z;
  gasPrice : Z
}.

Record StateTransitionProof := mkStateTransitionProof {
  oldStateRoot : string;
  newStateRoot : string;
  pvBatchIndex : Z;
  transactionCount : Z;
  pvTransactionHashes : list string
}.

Record ProofResult := mkProofResult {
  proofId : string;
  batchIndex : Z;
  proofData : string;
  publicValues : StateTransitionProof;
  proofSize : Z;
  generationTime : Z;
  prTimestamp : Z
}.

(** What can be thrown.  [Error msg] is [new Error(msg)] raised by the core
    itself; the other constructors are failures of the runtime or of a
    collaborator. *)
Inductive Exn :=
  | Error (msg : string)
  | TypeError (msg : string)
  | SyntaxError (msg : string)
  | SettlementError (reason : string)
  | ProverError (reason : string).

Definition InvalidTransition : Exn := Error "Invalid state transition".
Definition EmptyPool : Exn := Error "No pending transactions to batch".

#[global] Instance Transaction_eq_dec : EqDecision Transaction.
Proof. solve_decision. Defined.
#[global] Instance StateTransitionProof_eq_dec : EqDecision StateTransitionProof.
Proof. solve_decision. Defined.
#[global] Instance ProofResult_eq_dec : EqDecision ProofResult.
Proof. solve_decision. Defined.
#[global] Instance Exn_eq_dec : EqDecision Exn.
Proof. solve_decision. Defined.

(** State and exception monad shared by the stateful components: a method
    either returns or throws, and leaves a state behind in both cases. *)
Definition SE (S A : Type) : Type := S → (Exn + A) * S.

#[global] Instance SE_ret {S} : MRet (SE S) := λ A a s, (inr a, s).
#[global] Instance SE_bind {S} : MBind (SE S) := λ A B k m s,
  match m s with
  | (inl e, s') => (inl e, s')
  | (inr a, s') => k a s'
  end.
Definition throw {S A} (e : Exn) : SE S A := λ s, (inl e, s).
(** [try { m } catch (error) { log(error); throw error }] *)
Definition try_rethrow {S A} (m : SE S A) : SE S A :=
  λ s, match m s with
       | (inl e, s') => (inl e, s')
       | (inr a, s') => (inr a, s')
       end.

End Types.
Export Types.

(** ** StateRootManager ([core/state-manager]) *)

Module StateManager.

(** The entry of [batchHistory]. *)
Record Batch := mkBatch {
  bBatchIndex : Z;
  stateRoot : string;
  transactionHashes : list string;
  timestamp : Z;
  finalized : bool
}.

Record StateRootManager := mkStateRootManager {
  stateHistory : gmap Z string;
  batchHistory : gmap Z Batch;
  stateStorage : gmap string string
}.

(** [new StateRootManager(rollupContract)] *)
Definition new : StateRootManager :=
  {| stateHistory := ∅; batchHistory := ∅; stateStorage := ∅ |}.

(** The settlement ledger as the manager sees it through [RollupContract]:
    every call resolves or rejects. *)
Record Ledger := mkLedger {
  currentStateRoot : Exn + string;
  submitBatch : string → StateTransitionProof → list string → Exn + unit;
  submitAggregatedBatch :
    string → list StateTransitionProof → list string → Exn + unit
}.

Inductive LedgerCall :=
  | CallCurrentStateRoot
  | CallSubmitBatch (proof : string) (transition : StateTransitionProof)
      (vKeyHash : list string)
  | CallSubmitAggregatedBatch (proof : string)
      (transitions : list StateTransitionProof) (vKeyHash : list string).

(** A submission sent to the ledger (as opposed to a read). *)
Definition isSubmission (c : LedgerCall) : bool :=
  match c with
  | CallCurrentStateRoot => false
  | _ => true
  end.

(** The manager together with the trace of calls it made to the ledger. *)
Record World := mkWorld {
  mgr : StateRootManager;
  calls : list LedgerCall
}.

(** The monad of the manager's methods. *)
Abbreviation M := (SE World).

Definition modify (f : StateRootManager → StateRootManager) : M unit :=
  λ w, (inr tt, {| mgr := f (mgr w); calls := calls w |}).

Definition logged (c : LedgerCall) (w : World) : World :=
  {| mgr := mgr w; calls := calls w ++ [c] |}.

(** [await] on a ledger call: the call is recorded, its outcome returned. *)
Definition await_ledger {A} (c : LedgerCall) (reply : Exn + A) : M A :=
  λ w, (reply, logged c w).

Section Manager.

Variable rollupContract : Ledger.
(** [Math.floor(Date.now() / 1000)] at the time of the call. *)
Variable now : Z.

Definition getCurrentStateRoot : M string :=
  await_ledger CallCurrentStateRoot (currentStateRoot rollupContract).

Definition verifyStateTransition
    (oldRoot newRoot : string) (proofResult : ProofResult) : M bool :=
  let expectedOldRoot := oldStateRoot (publicValues proofResult) in
  let expectedNewRoot := newStateRoot (publicValues proofResult) in
  if bool_decide (oldRoot ≠ expectedOldRoot) then mret false
  else if bool_decide (newRoot ≠ expectedNewRoot) then mret false
  else mret true.

Definition saveState : M unit := mret tt.

(** The two [Map.set] calls made for an accepted proof. *)
Definition recordProof (proof : ProofResult) (s : StateRootManager)
    : StateRootManager :=
  {| stateHistory :=
       <[batchIndex proof := newStateRoot (publicValues proof)]>
         (stateHistory s);
     batchHistory :=
       <[batchIndex proof :=
           {| bBatchIndex := batchIndex proof;
              stateRoot := newStateRoot (publicValues proof);
              transactionHashes := pvTransactionHashes (publicValues proof);
              timestamp := now;
              finalized := true |}]>
         (batchHistory s);
     stateStorage := stateStorage s |}.

Definition submitStateUpdate
    (proofResult : ProofResult) (vKeyHash : list string) : M bool :=
  currentRoot ← getCurrentStateRoot;
  isValid ← verifyStateTransition currentRoot
              (newStateRoot (publicValues proofResult)) proofResult;
  if negb isValid then throw InvalidTransition
  else
    try_rethrow (
      await_ledger
        (CallSubmitBatch (proofData proofResult) (publicValues proofResult)
           vKeyHash)
        (submitBatch rollupContract (proofData proofResult)
           (publicValues proofResult) vKeyHash);;
      modify (recordProof proofResult);;
      saveState;;
      mret true).

Definition submitAggregatedStateUpdates
    (proofResults : list ProofResult) (vKeyHash : list string) : M bool :=
  currentRoot ← getCurrentStateRoot;
  let transitions := publicValues <$> proofResults in
  try_rethrow (
    match proofResults with
    | [] => throw (TypeError "Cannot read properties of undefined")
    | first :: _ =>
        await_ledger
          (CallSubmitAggregatedBatch (proofData first) transitions vKeyHash)
          (submitAggregatedBatch rollupContract (proofData first)
             transitions vKeyHash);;
        modify (λ s, foldl (λ acc proof, recordProof proof acc)
                       s proofResults);;
        saveState;;
        mret true
    end).

(** [new Map(this.stateHistory)] *)
Definition getStateHistory (s : StateRootManager) : gmap Z string :=
  stateHistory s.

Definition getBatchHistory (s : StateRootManager) : gmap Z Batch :=
  batchHistory s.

Definition getStateRoot (s : StateRootManager) (i : Z) : option string :=
  stateHistory s !! i.

End Manager.

(** The chaining protocol of an aggregate, in the words of the design:
    the first transition starts at the current root and every later one
    starts where its predecessor ended. *)
Fixpoint rootChainOk (current : string) (ts : list StateTransitionProof)
    : bool :=
  match ts with
  | [] => true
  | t :: rest =>
      bool_decide (oldStateRoot t = current)
      && rootChainOk (newStateRoot t) rest
  end.

End StateManager.

(** ** The settlement contract ([contracts/ZKEVMRollup.sol])

    The checks the contract makes before it accepts a submission, as far as
    they decide whether the call made through [RollupContract] resolves or
    rejects.  [bytes32] values are strings, [uint256] values are integers;
    [processedProofs] is keyed by the proof bytes (the contract keys it by
    their keccak256). *)

Module Contract.

Import StateManager.

Record Rollup := mkRollup {
  currentStateRoot : string;
  currentBatchIndex : Z;
  processedProofs : gset string;
  paused : bool;
  (** what [verifier.verifyProof] answers *)
  verifierAccepts : bool
}.

(** [constructor(_verifier, _initialStateRoot)] *)
Definition deploy (initialStateRoot : string) (verifier : bool) : Rollup :=
  {| currentStateRoot := initialStateRoot; currentBatchIndex := 0;
     processedProofs := ∅; paused := false; verifierAccepts := verifier |}.

(** The loop of [submitAggregatedBatch] over the transitions. *)
Fixpoint checkTransitions (expectedOldRoot : string) (expectedBatchIndex : Z)
    (transitions : list StateTransitionProof) : Exn + unit :=
  match transitions with
  | [] => inr tt
  | transition :: rest =>
      if bool_decide (oldStateRoot transition ≠ expectedOldRoot) then
        inl (SettlementError "InvalidStateRoot")
      else if bool_decide (pvBatchIndex transition ≠ expectedBatchIndex) then
        inl (SettlementError "InvalidBatchIndex")
      else checkTransitions (newStateRoot transition)
             (expectedBatchIndex + 1) rest
  end.

Definition submitAggregatedBatch (c : Rollup) (proof : string)
    (transitions : list StateTransitionProof) (vKeyHash : list string)
    : Exn + unit :=
  if paused c then inl (SettlementError "EnforcedPause")
  else if bool_decide (proof ∈ processedProofs c) then
    inl (SettlementError "ProofAlreadyProcessed")
  else
    match checkTransitions (currentStateRoot c) (currentBatchIndex c)
            transitions with
    | inl e => inl e
    | inr _ =>
        if negb (verifierAccepts c) then inl (SettlementError "InvalidProof")
        else if bool_decide (transitions = []) then
          inl (SettlementError "Panic(0x11)")
        else inr tt
    end.

Definition submitBatch (c : Rollup) (proof : string)
    (transition : StateTransitionProof) (vKeyHash : list string)
    : Exn + unit :=
  if paused c then inl (SettlementError "EnforcedPause")
  else if bool_decide (proof ∈ processedProofs c) then
    inl (SettlementError "ProofAlreadyProcessed")
  else if bool_decide (oldStateRoot transition ≠ currentStateRoot c) then
    inl (SettlementError "InvalidStateRoot")
  else if bool_decide (pvBatchIndex transition ≠ currentBatchIndex c) then
    inl (SettlementError "InvalidBatchIndex")
  else if negb (verifierAccepts c) then inl (SettlementError "InvalidProof")
  else inr tt.

(** The contract in state [c], seen as the manager's ledger. *)
Definition asLedger (c : Rollup) : Ledger :=
  {| StateManager.currentStateRoot := inr (currentStateRoot c);
     StateManager.submitBatch := submitBatch c;
     StateManager.submitAggregatedBatch := submitAggregatedBatch c |}.

End Contract.

(** ** Array primitives of the language *)

Module JS.

(** Relative index of [Array.prototype.slice]: a negative argument counts
    from the end, and the result is clamped to the array. *)
Definition relIndex (len k : Z) : Z :=
  if k <? 0 then Z.max (len + k) 0 else Z.min k len.

(** [arr.slice(start, stop)]; [stop = None] is [arr.slice(start)]. *)
Definition slice {A} (start : Z) (stop : option Z) (arr : list A) : list A :=
  let len := Z.of_nat (length arr) in
  let a := relIndex len start in
  let b := match stop with None => len | Some e => relIndex len e end in
  take (Z.to_nat (b - a)) (drop (Z.to_nat a) arr).

(** [Array.prototype.sort(compare)].  The language requires the sort to be
    stable; for a comparator that is a consistent ordering every stable sort
    returns the same array, here computed by insertion from the right. *)
Fixpoint insertBy {A} (compare : A → A → Z) (x : A) (arr : list A) : list A :=
  match arr with
  | [] => [x]
  | y :: rest =>
      if compare x y <=? 0 then x :: arr else y :: insertBy compare x rest
  end.

Definition sort {A} (compare : A → A → Z) (arr : list A) : list A :=
  foldr (insertBy compare) [] arr.

(** [s.repeat(n)] *)
Fixpoint repeat (s : string) (n : nat) : string :=
  match n with
  | O => ""
  | S n' => s +:+ repeat s n'
  end.

(** [String(n)] and template interpolation of an integer-valued number
    (decimal digits, a leading minus sign for negatives; exponent notation
    only starts at 1e21). *)
Definition numberToString (n : Z) : string := pretty n.

(** [parts.join(sep)] *)
Fixpoint join (sep : string) (parts : list string) : string :=
  match parts with
  | [] => ""
  | [x] => x
  | x :: rest => x +:+ sep +:+ join sep rest
  end.

(** [Math.ceil(a / b)] for integers [a] and [b ≠ 0]. *)
Definition ceilDiv (a b : Z) : Z := - ((- a) / b).

(** The doubles that are integers are the integers with at most 53
    significant bits, and [Infinity], which stands here as the integer
    2^1024, just above the largest double. *)
Definition Infinity : Z := Z.shiftl 1 1024.

(** The double nearest to the integer [n] (round to nearest, ties to the
    even significand): the [e] bits below the leading 53 are dropped, and
    the kept part is bumped when the dropped part is more than half a unit
    of the last kept place, or exactly half with an odd kept part.  A result
    beyond the largest double is [Infinity]. *)
Definition toDouble (n : Z) : Z :=
  let m := Z.abs n in
  let e := Z.max 0 (Z.log2 m - 52) in
  let q := Z.shiftr m e in
  let r := Z.land m (Z.ones e) in
  let up :=
    match 2 * r ?= Z.shiftl 1 e with
    | Gt => true
    | Eq => Z.odd q
    | Lt => false
    end in
  let d := Z.shiftl (if up then q + 1 else q) e in
  Z.sgn n * (if Infinity <=? d then Infinity else d).

(** [a * b] on two finite integer-valued numbers: the exact product,
    correctly rounded. *)
Definition mul (a b : Z) : Z := toDouble (a * b).

(** A value of type [number] as a comparison sees it.  Every finite double
    is a rational, and two finite doubles compare as the rationals they
    stand for. *)
Inductive number :=
  | NaN
  | NegInfinity
  | PosInfinity
  | Finite (q : Q).

(** [x < y] and [x > y]: false as soon as one side is [NaN]. *)
Definition lt (x y : number) : bool :=
  match x, y with
  | NaN, _ | _, NaN => false
  | _, NegInfinity => false
  | NegInfinity, _ => true
  | PosInfinity, _ => false
  | Finite _, PosInfinity => true
  | Finite p, Finite q => negb (Qle_bool q p)
  end.

Definition gt (x y : number) : bool := lt y x.

(** An integer as a [number]. *)
Definition ofZ (n : Z) : number := Finite (inject_Z n).

End JS.

(** ** BatchProcessor ([core/batch-processor]) *)

Module BatchProcessor.

Record BatchConfig := mkBatchConfig {
  maxTransactions : Z;
  maxGasLimit : Z;
  aggregationSize : Z;
  batchInterval : Z
}.


Record BatchStat := mkBatchStat {
  statTransactionCount : Z;
  gasUsed : Z;
  statTimestamp : Z
}.

Record State := mkState {
  config : BatchConfig;
  pendingTransactions : list Transaction;
  batchIndex : Z;
  processing : bool;
  transactionHashes : gset string;
  batchStats : gmap Z BatchStat
}.

(** [new BatchProcessor(rollupContract, stateRootManager, config)] *)
Definition new (cfg : BatchConfig) : State :=
  {| config := cfg; pendingTransactions := []; batchIndex := 0;
     processing := false; transactionHashes := ∅; batchStats := ∅ |}.

(** [initialize()]: the counter starts at the index the ledger reports. *)
Definition initialize (currentBatch : Z) (s : State) : State :=
  {| config := config s; pendingTransactions := pendingTransactions s;
     batchIndex := currentBatch; processing := processing s;
     transactionHashes := transactionHashes s; batchStats := batchStats s |}.

Definition calculateGasUsage (transactions : list Transaction) : Z :=
  foldl (λ total tx, total + gasLimit tx) 0 transactions.

(** The comparator of [optimizeBatch].  [sort] reads only the sign of the
    result and takes [NaN] for zero.  The difference of two finite doubles
    has the sign of their exact difference, and [Infinity - Infinity] is
    [NaN]: with [Infinity] standing as one integer the integer difference
    has that sign in every case. *)
Definition compareFee (a b : Transaction) : Z :=
  let gasA := JS.mul (gasLimit a) (gasPrice a) in
  let gasB := JS.mul (gasLimit b) (gasPrice b) in
  gasB - gasA.

Definition optimizeBatch (transactions : list Transaction)
    : list Transaction :=
  JS.sort compareFee transactions.




Definition estimateCurrentGasPrice : Q := 10%Q.

Definition calculateOptimalBatchSize (s : State) : Z :=
  let baseSize :=
    Z.min (maxTransactions (config s))
          (Z.of_nat (length (pendingTransactions s))) in
  let currentGasPrice := estimateCurrentGasPrice in
  let gasMultiplier :=
    Qmax (1 # 2) (Qmin (3 # 2) (1 / (currentGasPrice / 10))%Q) in
  let optimalSize := Qfloor (inject_Z baseSize * gasMultiplier)%Q in
  Z.max 1 (Z.min optimalSize (maxTransactions (config s))).

Definition getPendingTransactionCount (s : State) : Z :=
  Z.of_nat (length (pendingTransactions s)).

Definition getBatchIndex (s : State) : Z := batchIndex s.

Definition isProcessing (s : State) : bool := processing s.

Definition updateConfig (f : BatchConfig → BatchConfig) (s : State) : State :=
  {| config := f (config s); pendingTransactions := pendingTransactions s;
     batchIndex := batchIndex s; processing := processing s;
     transactionHashes := transactionHashes s; batchStats := batchStats s |}.

Definition clearPendingTransactions (s : State) : State :=
  {| config := config s; pendingTransactions := [];
     batchIndex := batchIndex s; processing := processing s;
     transactionHashes := ∅; batchStats := batchStats s |}.

Definition setPending (txs : list Transaction) (s : State) : State :=
  {| config := config s; pendingTransactions := txs;
     batchIndex := batchIndex s; processing := processing s;
     transactionHashes := transactionHashes s; batchStats := batchStats s |}.

Definition setHashes (h : gset string) (s : State) : State :=
  {| config := config s; pendingTransactions := pendingTransactions s;
     batchIndex := batchIndex s; processing := processing s;
     transactionHashes := h; batchStats := batchStats s |}.

Definition setProcessing (b : bool) (s : State) : State :=
  {| config := config s; pendingTransactions := pendingTransactions s;
     batchIndex := batchIndex s; processing := b;
     transactionHashes := transactionHashes s; batchStats := batchStats s |}.

(** *** Intake: validation and de-duplication *)

Section Intake.

(** Library functions the intake path calls. *)
Variable isAddress : string → bool.            (* ethers.isAddress *)
Variable BigInt : string → option Z.           (* BigInt(s); None: SyntaxError *)
Variable JSON_stringify : Transaction → string.
Variable toUtf8Bytes : string → list Byte.byte.
Variable keccak256 : list Byte.byte → string.

Definition generateTransactionHash (tx : Transaction) : string :=
  let txData :=
    {| from := from tx; to := to tx; value := value tx; data := data tx;
       nonce := nonce tx; gasLimit := gasLimit tx;
       gasPrice := gasPrice tx |} in
  keccak256 (toUtf8Bytes (JSON_stringify txData)).

(** A non-empty string is truthy. *)
Definition truthy (s : string) : bool := negb (String.eqb s "").

(** The checks on a transaction whose [nonce], [gasLimit] and [gasPrice] are
    integers; [RawIntake.validateTransaction] has them on every number. *)
Definition validateTransaction (tx : Transaction) : SE State unit :=
  λ s,
  if negb (isAddress (from tx)) then
    throw (Error "Invalid from address") s
  else if negb (isAddress (to tx)) then
    throw (Error "Invalid to address") s
  else if gasLimit tx >? maxGasLimit (config s) then
    throw (Error "Gas limit exceeds maximum allowed") s
  else if gasLimit tx <? 21000 then
    throw (Error "Gas limit below minimum required") s
  else if nonce tx <? 0 then
    throw (Error "Nonce must be non-negative") s
  else if gasPrice tx <? 0 then
    throw (Error "Gas price must be non-negative") s
  else
    match (if truthy (value tx) then BigInt (value tx) else Some 0) with
    | None => throw (SyntaxError "Cannot convert to a BigInt") s
    | Some v =>
        if v <? 0 then throw (Error "Value must be non-negative") s
        else if truthy (data tx) && negb (String.prefix "0x" (data tx)) then
          throw (Error "Data must be a hex string") s
        else (inr tt, s)
    end.

Definition addTransaction (tx : Transaction) : SE State unit :=
  validateTransaction tx;;
  let txHash := generateTransactionHash tx in
  ((λ s,
    if bool_decide (txHash ∈ transactionHashes s) then (inr tt, s)
    else
      (inr tt,
       setHashes ({[txHash]} ∪ transactionHashes s)
         (setPending (pendingTransactions s ++ [tx]) s)))
   : SE State unit).

(** One iteration of the loop of [addTransactions]: [validTxs] is the local
    accumulator, the digest set is updated at once. *)
Definition addTransactions_step
    (acc : list Transaction * State) (tx : Transaction)
    : list Transaction * State :=
  let '(validTxs, s) := acc in
  match validateTransaction tx s with
  | (inl _, _) => (validTxs, s)
  | (inr _, _) =>
      let txHash := generateTransactionHash tx in
      if bool_decide (txHash ∉ transactionHashes s) then
        (validTxs ++ [tx], setHashes ({[txHash]} ∪ transactionHashes s) s)
      else (validTxs, s)
  end.

Definition addTransactions (txs : list Transaction) (s : State) : State :=
  let '(validTxs, s') := foldl addTransactions_step ([], s) txs in
  setPending (pendingTransactions s' ++ validTxs) s'.

End Intake.

(** *** Batch formation *)

(** What [createBatch] holds across its [await]: the call it made to the
    prover and the locals its continuation still reads. *)
Record CreateBatchFrame := mkFrame {
  proverTransactions : list Transaction;   (* optimizedTransactions *)
  proverBatchIndex : Z;                    (* this.batchIndex at the call *)
  frameTransactionCount : Z;               (* batchTransactions.length *)
  frameGasUsage : Z
}.

(** [createBatch] up to [await generateProofForBatch(...)]. *)
Definition createBatch_start : SE State CreateBatchFrame :=
  λ s,
  if bool_decide (length (pendingTransactions s) = 0%nat) then
    throw EmptyPool s
  else
    let batchSize := calculateOptimalBatchSize s in
    let batchTransactions :=
      JS.slice 0 (Some batchSize) (pendingTransactions s) in
    let s1 := setPending (JS.slice batchSize None (pendingTransactions s)) s in
    let optimizedTransactions := optimizeBatch batchTransactions in
    let gasUsage := calculateGasUsage optimizedTransactions in
    (inr {| proverTransactions := optimizedTransactions;
            proverBatchIndex := batchIndex s1;
            frameTransactionCount := Z.of_nat (length batchTransactions);
            frameGasUsage := gasUsage |}, s1).

(** [createBatch] after the [await]: the prover resolved with [outcome] at
    time [now]. *)
Definition createBatch_resume (frame : CreateBatchFrame) (now : Z)
    (outcome : Exn + ProofResult) : SE State ProofResult :=
  λ s,
  match outcome with
  | inl e => throw e s
  | inr proof =>
      (inr proof,
        {| config := config s;
           pendingTransactions := pendingTransactions s;
           batchIndex := batchIndex s + 1;
           processing := processing s;
           transactionHashes := transactionHashes s;
           batchStats :=
             <[batchIndex s :=
                 {| statTransactionCount := frameTransactionCount frame;
                    gasUsed := frameGasUsage frame;
                    statTimestamp := now |}]> (batchStats s) |})
  end.

(** [await createBatch()] with nothing else scheduled in between: the
    prover's answer may depend on the request. *)
Definition createBatch (now : Z)
    (prover : list Transaction → Z → Exn + ProofResult)
    : SE State ProofResult :=
  frame ← createBatch_start;
  createBatch_resume frame now
    (prover (proverTransactions frame) (proverBatchIndex frame)).

(** [n] times [await createBatch()], each call awaited before the next is
    made; returns the batch indices handed to the prover, in order.  Stops
    at the first call that throws. *)
Fixpoint createBatchesInSequence (now : Z)
    (prover : list Transaction → Z → Exn + ProofResult)
    (n : nat) (s : State) : list Z * State :=
  match n with
  | O => ([], s)
  | S n' =>
      match createBatch_start s with
      | (inl _, s1) => ([], s1)
      | (inr frame, s1) =>
          match createBatch_resume frame now
                  (prover (proverTransactions frame) (proverBatchIndex frame))
                  s1 with
          | (inl _, s2) => ([proverBatchIndex frame], s2)
          | (inr _, s2) =>
              let '(indices, s3) :=
                createBatchesInSequence now prover n' s2 in
              (proverBatchIndex frame :: indices, s3)
          end
      end
  end.

(** The continuations of the launched batches, run in the given order once
    the prover has answered each request. *)
Definition settleBatches (now : Z)
    (prover : list Transaction → Z → Exn + ProofResult)
    (frames : list CreateBatchFrame) (s : State)
    : list (Exn + ProofResult) * State :=
  foldl
    (λ '(results, s) frame,
       let '(r, s') :=
         createBatch_resume frame now
           (prover (proverTransactions frame) (proverBatchIndex frame)) s in
       (results ++ [r], s'))
    ([], s) frames.

(** [batchCount] of [processPendingTransactions]. *)
Definition batchCount (s : State) : Z :=
  let maxConcurrentBatches := 3 in
  let len := Z.of_nat (length (pendingTransactions s)) in
  if maxTransactions (config s) =? 0 then maxConcurrentBatches
  else Z.min maxConcurrentBatches
         (JS.ceilDiv len (maxTransactions (config s))).

(** The [for] loop of [processPendingTransactions]: each iteration runs
    [createBatch] up to its [await] and pushes the promise; no continuation
    runs before the loop has ended. *)
Fixpoint launchBatches (n : nat) (s : State)
    : list CreateBatchFrame * State :=
  match n with
  | O => ([], s)
  | S n' =>
      if bool_decide (0 < length (pendingTransactions s))%nat then
        match createBatch_start s with
        | (inr frame, s') =>
            let '(frames, s'') := launchBatches n' s' in
            (frame :: frames, s'')
        | (inl _, s') => ([], s')
        end
      else ([], s)
  end.

Inductive Entered :=
  | AlreadyInProgress                       (* returned [] at the guard *)
  | NothingToDo                             (* loop not entered *)
  | Launched (frames : list CreateBatchFrame).

(** [processPendingTransactions] up to its first [await] (the
    [Promise.all] over the launched batches). *)
Definition processPendingTransactions_enter (s : State) : Entered * State :=
  if processing s then (AlreadyInProgress, s)
  else
    let s1 := setProcessing true s in
    if bool_decide (0 < length (pendingTransactions s1))%nat then
      let '(frames, s2) := launchBatches (Z.to_nat (batchCount s1)) s1 in
      (Launched frames, s2)
    else (NothingToDo, setProcessing false s1).

(** The [finally] block of [processPendingTransactions]. *)
Definition processPendingTransactions_finally (s : State) : State :=
  setProcessing false s.

(** The proof [generateProofForBatch] of [prover/src/prover.ts] builds
    from the mock verifier, for the request [(transactions, batchIndex)];
    identifier and clock readings are supplied. *)
Definition mockPublicValues : StateTransitionProof :=
  {| oldStateRoot := "0x" +:+ JS.repeat "0" 64;
     newStateRoot := "0x" +:+ JS.repeat "1" 64;
     pvBatchIndex := 0;
     transactionCount := 1;
     pvTransactionHashes := [] |}.

Definition generateProofForBatch (id : string) (elapsed now : Z)
    (transactions : list Transaction) (batchIndex : Z) : ProofResult :=
  {| proofId := id;
     Types.batchIndex := batchIndex;
     proofData := JS.repeat "00" 1024;
     publicValues := mockPublicValues;
     proofSize := 1024;
     generationTime := elapsed;
     prTimestamp := now |}.

End BatchProcessor.

(** ** ProofGenerator ([core/proof-generator]) *)

Module ProofGenerator.

(** A promise is identified by the position of the prover invocation that
    created it. *)
Definition Promise := nat.

Record State := mkState {
  pendingProofs : gmap Z Promise;
  proofCache : gmap string ProofResult;
  (** every call made to [generateProofForBatch], in order *)
  proverCalls : list (list Transaction * Z)
}.

Definition new : State :=
  {| pendingProofs := ∅; proofCache := ∅; proverCalls := [] |}.

Definition generateCacheKey (transactions : list Transaction)
    (batchIndex : Z) : string :=
  let txHashes :=
    JS.join "_"
      ((λ tx, from tx +:+ "_" +:+ to tx +:+ "_" +:+ value tx +:+ "_"
              +:+ JS.numberToString (nonce tx)) <$> transactions) in
  JS.numberToString batchIndex +:+ "_" +:+ txHashes.

(** Two transactions agree on the fields the cache key reads. *)
Definition sameKeyFields (a b : Transaction) : Prop :=
  from a = from b ∧ to a = to b ∧ value a = value b ∧ nonce a = nonce b.

Inductive Started :=
  | CacheHit (proof : ProofResult)          (* returned from the cache *)
  | Joined (promise : Promise)              (* returned the pending promise *)
  | Invoked (promise : Promise) (cacheKey : string).

(** [generateProof] up to [await proofPromise]; [doGenerateProof] has called
    the prover by then. *)
Definition generateProof_start (transactions : list Transaction)
    (batchIndex : Z) (s : State) : Started * State :=
  let cacheKey := generateCacheKey transactions batchIndex in
  match proofCache s !! cacheKey with
  | Some proof => (CacheHit proof, s)
  | None =>
      match pendingProofs s !! batchIndex with
      | Some promise => (Joined promise, s)
      | None =>
          let proofPromise := length (proverCalls s) in
          (Invoked proofPromise cacheKey,
           {| pendingProofs := <[batchIndex := proofPromise]> (pendingProofs s);
              proofCache := proofCache s;
              proverCalls := proverCalls s ++ [(transactions, batchIndex)] |})
      end
  end.

(** [generateProof] after the [await]: the [try] body on success, then the
    [finally] block in both cases. *)
Definition generateProof_resume (cacheKey : string) (batchIndex : Z)
    (outcome : Exn + ProofResult) : SE State ProofResult :=
  λ s,
  match outcome with
  | inr proof =>
      (inr proof,
       {| pendingProofs := delete batchIndex (pendingProofs s);
          proofCache := <[cacheKey := proof]> (proofCache s);
          proverCalls := proverCalls s |})
  | inl e =>
      (inl e,
       {| pendingProofs := delete batchIndex (pendingProofs s);
          proofCache := proofCache s;
          proverCalls := proverCalls s |})
  end.

Inductive Returned :=
  | Settled (result : Exn + ProofResult)
  | Awaiting (promise : Promise).

(** [await generateProof(transactions, batchIndex)] with nothing else
    scheduled in between; [outcome] is what the prover answers if it is
    called. *)
Definition generateProof (transactions : list Transaction) (batchIndex : Z)
    (outcome : Exn + ProofResult) (s : State) : Returned * State :=
  match generateProof_start transactions batchIndex s with
  | (CacheHit proof, s') => (Settled (inr proof), s')
  | (Joined promise, s') => (Awaiting promise, s')
  | (Invoked _ cacheKey, s') =>
      let '(result, s'') :=
        generateProof_resume cacheKey batchIndex outcome s' in
      (Settled result, s'')
  end.

Definition clearCache (s : State) : State :=
  {| pendingProofs := pendingProofs s; proofCache := ∅;
     proverCalls := proverCalls s |}.

Definition getCacheSize (s : State) : nat := size (proofCache s).
Definition getPendingProofsCount (s : State) : nat := size (pendingProofs s).

End ProofGenerator.

(** ** RollupSequencer ([core/sequencer]) *)

Module Sequencer.

Import BatchProcessor.

Record RollupSequencer := mkRollupSequencer {
  isRunning : bool;
  lastBatchTimestamp : Z;
  totalBatches : Z
}.

Definition new : RollupSequencer :=
  {| isRunning := false; lastBatchTimestamp := 0; totalBatches := 0 |}.

(** A cycle that has started and whose promise has not settled yet. *)
Inductive Cycle :=
  | TickCycle (frames : list CreateBatchFrame)
      (* [processPendingTransactions], entered from [processBatch] *)
  | ForceCycle (frame : CreateBatchFrame).
      (* [createAndPostBatch], entered from [forceBatch] *)

Record System := mkSystem {
  batchProcessor : BatchProcessor.State;
  sequencer : RollupSequencer;
  inFlight : list Cycle
}.

Inductive Entry :=
  | ReturnedEmpty       (* resolved with [] without starting a cycle *)
  | Threw (e : Exn)
  | CycleStarted.

(** [processBatch] (the body of the timer callback) up to its first
    suspension. *)
Definition processBatch_enter (sys : System) : Entry * System :=
  if getPendingTransactionCount (batchProcessor sys) =? 0 then
    (ReturnedEmpty, sys)
  else if isProcessing (batchProcessor sys) then (ReturnedEmpty, sys)
  else
    match processPendingTransactions_enter (batchProcessor sys) with
    | (Launched frames, p') =>
        (CycleStarted,
         {| batchProcessor := p'; sequencer := sequencer sys;
            inFlight := inFlight sys ++ [TickCycle frames] |})
    | (_, p') =>
        (ReturnedEmpty,
         {| batchProcessor := p'; sequencer := sequencer sys;
            inFlight := inFlight sys |})
    end.

(** [forceBatch] up to its first suspension, which is inside
    [createAndPostBatch] → [createBatch]. *)
Definition forceBatch_enter (sys : System) : Entry * System :=
  if getPendingTransactionCount (batchProcessor sys) =? 0 then
    (Threw EmptyPool, sys)
  else
    match createBatch_start (batchProcessor sys) with
    | (inr frame, p') =>
        (CycleStarted,
         {| batchProcessor := p'; sequencer := sequencer sys;
            inFlight := inFlight sys ++ [ForceCycle frame] |})
    | (inl e, p') =>
        (Threw e,
         {| batchProcessor := p'; sequencer := sequencer sys;
            inFlight := inFlight sys |})
    end.

Definition isTickCycle (c : Cycle) : bool :=
  match c with TickCycle _ => true | ForceCycle _ => false end.

(** Number of cycles in flight. *)
Definition cyclesInFlight (sys : System) : nat := length (inFlight sys).

(** All indices handed to the prover by the cycles in flight. *)
Definition cycleIndices (c : Cycle) : list Z :=
  match c with
  | TickCycle frames => proverBatchIndex <$> frames
  | ForceCycle frame => [proverBatchIndex frame]
  end.

Definition indicesInFlight (sys : System) : list Z :=
  inFlight sys ≫= cycleIndices.

End Sequencer.

(** ** Concrete collaborators and inputs used in the examples *)

Module Fixtures.

Import StateManager.

Definition root0 : string := "0x" +:+ JS.repeat "0" 64.
Definition root1 : string := "0x" +:+ JS.repeat "1" 64.

(** A ledger whose current root is [r] and which accepts what it is sent. *)
Definition acceptingLedger (r : string) : Ledger :=
  {| currentStateRoot := inr r;
     submitBatch := λ _ _ _, inr tt;
     submitAggregatedBatch := λ _ _ _, inr tt |}.

(** The proof the repository's prover returns for batch [k]. *)
Definition mockProof (k : Z) : ProofResult :=
  BatchProcessor.generateProofForBatch "proof_" 0 0 [] k.

(** Two consecutive batches proved by that prover: both transitions declare
    [root0 → root1], so the second does not start where the first ends. *)
Definition brokenAggregate : list ProofResult := [mockProof 0; mockProof 1].

(** The contract, freshly deployed at [root0] with a verifier that accepts. *)
Definition onChain : Ledger := Contract.asLedger (Contract.deploy root0 true).

Definition freshWorld : World := {| mgr := StateManager.new; calls := [] |}.

(** A proof whose declared old root is not the ledger's. *)
Definition staleProof : ProofResult :=
  {| proofId := "proof_stale"; Types.batchIndex := 7; proofData := "00";
     publicValues :=
       {| oldStateRoot := root1; newStateRoot := root0; pvBatchIndex := 7;
          transactionCount := 1; pvTransactionHashes := [] |};
     proofSize := 1; generationTime := 0; prTimestamp := 0 |}.

(** Stand-ins for the library primitives of the intake path, used to run
    the examples.  [isLowerHexAddress] accepts "0x" followed by forty
    lower-case hexadecimal digits (addresses [ethers.isAddress] accepts);
    [parseDecimal] reads an unsigned decimal numeral; the encoding lists the
    seven fields; the digest stand-in is the identity on the encoding. *)
Definition isHexDigit (c : Ascii.ascii) : bool :=
  let n := Z.of_N (Ascii.N_of_ascii c) in
  ((48 <=? n) && (n <=? 57)) || ((97 <=? n) && (n <=? 102)).

Fixpoint allChars (p : Ascii.ascii → bool) (s : string) : bool :=
  match s with
  | EmptyString => true
  | String c rest => p c && allChars p rest
  end.

Definition isLowerHexAddress (s : string) : bool :=
  String.prefix "0x" s
  && (String.length s =? 42)%nat
  && allChars isHexDigit (String.substring 2 40 s).

Fixpoint parseDigits (acc : Z) (s : string) : option Z :=
  match s with
  | EmptyString => Some acc
  | String c rest =>
      let n := Z.of_N (Ascii.N_of_ascii c) in
      if (48 <=? n) && (n <=? 57) then parseDigits (10 * acc + (n - 48)) rest
      else None
  end.

Definition parseDecimal (s : string) : option Z := parseDigits 0 s.

Definition encodeTx (tx : Transaction) : string :=
  JS.join ","
    [from tx; to tx; value tx; data tx; JS.numberToString (nonce tx);
     JS.numberToString (gasLimit tx); JS.numberToString (gasPrice tx)].

Definition utf8 (s : string) : list Byte.byte := String.list_byte_of_string s.
Definition digest (b : list Byte.byte) : string :=
  String.string_of_list_byte b.

Definition alice : string := "0x1234567890123456789012345678901234567890".
Definition bob : string := "0x0987654321098765432109876543210987654321".

Definition transfer (n amount price : Z) : Transaction :=
  {| from := alice; to := bob; value := JS.numberToString amount;
     data := "0x"; nonce := n; gasLimit := 21000; gasPrice := price |}.

Definition tx1 : Transaction := transfer 0 1 10.
Definition tx2 : Transaction := transfer 1 2 30.
Definition tx3 : Transaction := transfer 2 3 10.
Definition tx4 : Transaction := transfer 3 4 20.


(** [addTransaction] with the stand-ins. *)
Definition intake (tx : Transaction)
    : SE BatchProcessor.State unit :=
  BatchProcessor.addTransaction isLowerHexAddress parseDecimal encodeTx
    utf8 digest tx.

Definition digestOf (tx : Transaction) : string :=
  BatchProcessor.generateTransactionHash encodeTx utf8 digest tx.

(** A processor with one transaction per batch, initialised from a ledger
    that reports batch index 5. *)
Definition oneTxPerBatch : BatchProcessor.BatchConfig :=
  {| BatchProcessor.maxTransactions := 1;
     BatchProcessor.maxGasLimit := 10000000;
     BatchProcessor.aggregationSize := 5;
     BatchProcessor.batchInterval := 30000 |}.

Definition emptyPool : BatchProcessor.State :=
  BatchProcessor.initialize 5 (BatchProcessor.new oneTxPerBatch).

Definition poolOf (txs : list Transaction) : BatchProcessor.State :=
  foldl (λ s tx, (intake tx s).2) emptyPool txs.


(** The repository's prover as a collaborator that always answers. *)
Definition mockProver (transactions : list Transaction) (k : Z)
    : Exn + ProofResult :=
  inr (BatchProcessor.generateProofForBatch "proof_" 0 0 transactions k).

(** The same transfer as [tx1] with another payload, gas limit and gas
    price. *)
Definition tx1' : Transaction :=
  {| from := alice; to := bob; value := "1"; data := "0xdeadbeef";
     nonce := 0; gasLimit := 50000; gasPrice := 99 |}.

Definition proofA : ProofResult :=
  BatchProcessor.generateProofForBatch "proof_A" 0 0 [tx1] 5.
Definition proofB : ProofResult :=
  BatchProcessor.generateProofForBatch "proof_B" 0 0 [tx1'] 5.

Definition launchedFrames (e : BatchProcessor.Entered)
    : list BatchProcessor.CreateBatchFrame :=
  match e with
  | BatchProcessor.Launched frames => frames
  | _ => []
  end.

Definition indexOfResult (r : Exn + ProofResult) : option Z :=
  match r with
  | inl _ => None
  | inr proof => Some (Types.batchIndex proof)
  end.

End Fixtures.

(** ** BatchProcessor: histories of calls *)

Module BatchProcessorOps.

Import BatchProcessor.

Section Ops.

Variable isAddress : string → bool.
Variable BigInt : string → option Z.
Variable JSON_stringify : Transaction → string.
Variable toUtf8Bytes : string → list Byte.byte.
Variable keccak256 : list Byte.byte → string.

(** A call made on the processor, or a continuation of [createBatch]
    running. *)
Inductive Op :=
  | AddTransaction (tx : Transaction)
  | AddTransactions (txs : list Transaction)
  | CreateBatchStart
  | CreateBatchResume (frame : CreateBatchFrame) (now : Z)
      (outcome : Exn + ProofResult)
  | ProcessPendingEnter
  | ProcessPendingFinally
  | UpdateConfig (newConfig : BatchConfig → BatchConfig)
  | ClearPendingTransactions.

(** The processor after the call, whether it returned or threw. *)
Definition step (s : State) (op : Op) : State :=
  match op with
  | AddTransaction tx =>
      (addTransaction isAddress BigInt JSON_stringify toUtf8Bytes keccak256
         tx s).2
  | AddTransactions txs =>
      addTransactions isAddress BigInt JSON_stringify toUtf8Bytes keccak256
        txs s
  | CreateBatchStart => (createBatch_start s).2
  | CreateBatchResume frame now outcome =>
      (createBatch_resume frame now outcome s).2
  | ProcessPendingEnter => (processPendingTransactions_enter s).2
  | ProcessPendingFinally => processPendingTransactions_finally s
  | UpdateConfig newConfig => updateConfig newConfig s
  | ClearPendingTransactions => clearPendingTransactions s
  end.

Definition run (ops : list Op) (s : State) : State := foldl step s ops.

(** The digests of the queued transactions, in queue order. *)
Definition queuedDigests (s : State) : list string :=
  generateTransactionHash JSON_stringify toUtf8Bytes keccak256
    <$> pendingTransactions s.

(** What [validateTransaction] accepts under a configuration. *)
Definition wellFormed (cfg : BatchConfig) (tx : Transaction) : Prop :=
  isAddress (from tx) = true
  ∧ isAddress (to tx) = true
  ∧ 21000 ≤ gasLimit tx ≤ maxGasLimit cfg
  ∧ 0 ≤ nonce tx
  ∧ 0 ≤ gasPrice tx
  ∧ (value tx = "" ∨ ∃ v, BigInt (value tx) = Some v ∧ 0 ≤ v)
  ∧ (data tx = "" ∨ String.prefix "0x" (data tx) = true).

(** The queue holds no two transactions with the same digest, and the
    digest of every queued transaction is recorded. *)
Definition queueInvariant (s : State) : Prop :=
  NoDup (queuedDigests s)
  ∧ ∀ h, h ∈ queuedDigests s → h ∈ transactionHashes s.

End Ops.

(** The sum [calculateGasUsage] computes, over the transactions in any
    order. *)
Definition totalGasLimit (transactions : list Transaction) : Z :=
  foldr (λ tx total, gasLimit tx + total) 0 transactions.

End BatchProcessorOps.

(** ** BatchProcessor: validation on every number *)

Module RawIntake.

Import BatchProcessor.

(** A transaction as a caller can pass it: the three numeric fields hold any
    [number]. *)
Record Transaction := mkTransaction {
  from : string;
  to : string;
  value : string;
  data : string;
  nonce : JS.number;
  gasLimit : JS.number;
  gasPrice : JS.number
}.

(** A transaction with integer fields, as such a value. *)
Definition ofTransaction (tx : Types.Transaction) : Transaction :=
  {| from := Types.from tx; to := Types.to tx; value := Types.value tx;
     data := Types.data tx; nonce := JS.ofZ (Types.nonce tx);
     gasLimit := JS.ofZ (Types.gasLimit tx);
     gasPrice := JS.ofZ (Types.gasPrice tx) |}.

Section Intake.

Variable isAddress : string → bool.            (* ethers.isAddress *)
Variable BigInt : string → option Z.           (* BigInt(s); None: SyntaxError *)

Definition validateTransaction (tx : Transaction) : SE State unit :=
  λ s,
  if negb (isAddress (from tx)) then
    throw (Error "Invalid from address") s
  else if negb (isAddress (to tx)) then
    throw (Error "Invalid to address") s
  else if JS.gt (gasLimit tx) (JS.ofZ (maxGasLimit (config s))) then
    throw (Error "Gas limit exceeds maximum allowed") s
  else if JS.lt (gasLimit tx) (JS.ofZ 21000) then
    throw (Error "Gas limit below minimum required") s
  else if JS.lt (nonce tx) (JS.ofZ 0) then
    throw (Error "Nonce must be non-negative") s
  else if JS.lt (gasPrice tx) (JS.ofZ 0) then
    throw (Error "Gas price must be non-negative") s
  else
    match (if truthy (value tx) then BigInt (value tx) else Some 0) with
    | None => throw (SyntaxError "Cannot convert to a BigInt") s
    | Some v =>
        if v <? 0 then throw (Error "Value must be non-negative") s
        else if truthy (data tx) && negb (String.prefix "0x" (data tx)) then
          throw (Error "Data must be a hex string") s
        else (inr tt, s)
    end.

(** A number that is [lo] or more, [hi] or less. *)
Definition atLeast (lo : Z) (x : JS.number) : Prop :=
  match x with
  | JS.NaN | JS.NegInfinity => False
  | JS.PosInfinity => True
  | JS.Finite q => (inject_Z lo <= q)%Q
  end.

Definition atMost (hi : Z) (x : JS.number) : Prop :=
  match x with
  | JS.NaN | JS.PosInfinity => False
  | JS.NegInfinity => True
  | JS.Finite q => (q <= inject_Z hi)%Q
  end.

(** The transactions that pass: each numeric field is in its range or is
    [NaN]. *)
Definition passes (cfg : BatchConfig) (tx : Transaction) : Prop :=
  isAddress (from tx) = true
  ∧ isAddress (to tx) = true
  ∧ (gasLimit tx = JS.NaN
     ∨ (atLeast 21000 (gasLimit tx) ∧ atMost (maxGasLimit cfg) (gasLimit tx)))
  ∧ (nonce tx = JS.NaN ∨ atLeast 0 (nonce tx))
  ∧ (gasPrice tx = JS.NaN ∨ atLeast 0 (gasPrice tx))
  ∧ (value tx = "" ∨ ∃ v, BigInt (value tx) = Some v ∧ 0 ≤ v)
  ∧ (data tx = "" ∨ String.prefix "0x" (data tx) = true).

End Intake.

End RawIntake.

(** ** StateRootManager: loading, queries and balances *)

Module StateStore.

Import StateManager.

(** A batch as the contract returns it from [batches(i)]. *)
Record ContractBatch := mkContractBatch {
  cbStateRoot : string;
  cbTransactionHashes : list string;
  cbTimestamp : Z;
  cbFinalized : bool
}.

(** The read calls of [RollupContract] the manager uses besides
    [getCurrentStateRoot]. *)
Record Reads := mkReads {
  getCurrentBatchIndex : Exn + Z;
  getBatch : Z → Exn + ContractBatch
}.

Definition entryOf (i : Z) (batch : ContractBatch) : Batch :=
  {| bBatchIndex := i;
     stateRoot := cbStateRoot batch;
     transactionHashes := cbTransactionHashes batch;
     timestamp := cbTimestamp batch;
     finalized := cbFinalized batch |}.

(** The body of the loop of [initialize]: a batch that cannot be read is
    logged and skipped. *)
Definition loadBatch (reads : Reads) (s : StateRootManager) (i : Z)
    : StateRootManager :=
  match getBatch reads i with
  | inl _ => s
  | inr batch =>
      {| stateHistory := <[i := cbStateRoot batch]> (stateHistory s);
         batchHistory := <[i := entryOf i batch]> (batchHistory s);
         stateStorage := stateStorage s |}
  end.

Definition initialize (reads : Reads) : SE StateRootManager unit :=
  λ s,
  match getCurrentBatchIndex reads with
  | inl e => (inl e, s)
  | inr currentBatch =>
      (inr tt, foldl (loadBatch reads) s (seqZ 0 currentBatch))
  end.

Definition getBatch_local (s : StateRootManager) (batchIndex : Z)
    : option Batch :=
  batchHistory s !! batchIndex.

(** The loop of [getLatestBatches]: a local entry is preferred, otherwise
    the contract is asked; the first failing read aborts the call. *)
Fixpoint collectBatches (reads : Reads) (s : StateRootManager)
    (indices : list Z) : Exn + list Batch :=
  match indices with
  | [] => inr []
  | i :: rest =>
      let found :=
        match batchHistory s !! i with
        | Some batch =>
            inr {| bBatchIndex := i;
                   stateRoot := stateRoot batch;
                   transactionHashes := transactionHashes batch;
                   timestamp := timestamp batch;
                   finalized := finalized batch |}
        | None =>
            match getBatch reads i with
            | inl e => inl e
            | inr batch => inr (entryOf i batch)
            end
        end in
      match found with
      | inl e => inl e
      | inr entry =>
          match collectBatches reads s rest with
          | inl e => inl e
          | inr entries => inr (entry :: entries)
          end
      end
  end.

Definition getLatestBatches (reads : Reads) (count : Z)
    (s : StateRootManager) : Exn + list Batch :=
  match getCurrentBatchIndex reads with
  | inl e => inl e
  | inr currentBatch =>
      let startBatch := Z.max 0 (currentBatch - count) in
      match collectBatches reads s
              (seqZ startBatch (currentBatch - startBatch)) with
      | inl e => inl e
      | inr batches => inr (reverse batches)
      end
  end.

(** *** Balances *)

(** [StateTransition] of [core/types]. *)
Record StateTransition := mkStateTransition {
  from : string;
  to : string;
  value : Z;
  data : string;
  nonce : Z;
  gasLimit : Z;
  gasPrice : Z;
  gasUsed : Z;
  success : bool;
  logs : list string;
  returnData : string;
  blockNumber : Z;
  blockTimestamp : Z
}.

Section Balances.

Variable toLowerCase : string → string.   (* String.prototype.toLowerCase *)
Variable BigInt : string → option Z.      (* BigInt(s); None: SyntaxError *)
Variable toString : Z → string.           (* BigInt.prototype.toString *)

Definition getBalance (address : string) (s : StateRootManager) : string :=
  match stateStorage s !! toLowerCase address with
  | Some balance => if BatchProcessor.truthy balance then balance else "0"
  | None => "0"
  end.

Definition setBalance (address balance : string) (s : StateRootManager)
    : StateRootManager :=
  {| stateHistory := stateHistory s;
     batchHistory := batchHistory s;
     stateStorage := <[toLowerCase address := balance]> (stateStorage s) |}.

(** The body of the loop of [updateState]. *)
Definition applyTransition (transition : StateTransition)
    : SE StateRootManager unit :=
  λ s,
  if success transition then
    match BigInt (getBalance (from transition) s) with
    | None => throw (SyntaxError "Cannot convert to a BigInt") s
    | Some fromBalance =>
        match BigInt (getBalance (to transition) s) with
        | None => throw (SyntaxError "Cannot convert to a BigInt") s
        | Some toBalance =>
            let value := value transition in
            if fromBalance >=? value then
              (inr tt,
               setBalance (to transition) (toString (toBalance + value))
                 (setBalance (from transition)
                    (toString (fromBalance - value)) s))
            else (inr tt, s)
        end
    end
  else (inr tt, s).

Fixpoint updateState (transitions : list StateTransition)
    : SE StateRootManager unit :=
  match transitions with
  | [] => mret tt
  | transition :: rest => applyTransition transition;; updateState rest
  end.

End Balances.

End StateStore.

(** ** Merkle tree and state roots ([core/state-manager]) *)

Module Merkle.

Section Tree.

Variable toUtf8Bytes : string → list Byte.byte.
Variable keccak256 : list Byte.byte → string.
Variable JSON_stringify : Transaction → string.

(** The pass of [build] over one layer: nodes are hashed in pairs, a node
    without a right neighbour is paired with itself. *)
Fixpoint nextLayer (currentLayer : list string) : list string :=
  match currentLayer with
  | [] => []
  | [left_] => [keccak256 (toUtf8Bytes (left_ +:+ left_))]
  | left_ :: next :: rest =>
      let right_ := if BatchProcessor.truthy next then next else left_ in
      keccak256 (toUtf8Bytes (left_ +:+ right_)) :: nextLayer rest
  end.

(** The [while] loop of [build]; no layer needs more rounds than it has
    nodes. *)
Fixpoint buildFrom (fuel : nat) (currentLayer : list string)
    : list (list string) :=
  match fuel with
  | O => []
  | S fuel' =>
      if bool_decide (1 < length currentLayer)%nat then
        let next := nextLayer currentLayer in
        next :: buildFrom fuel' next
      else []
  end.

Record MerkleTree := mkMerkleTree {
  leaves : list string;
  layers : list (list string)
}.

(** [new MerkleTree(leaves)] *)
Definition new (leaves : list string) : MerkleTree :=
  {| leaves := leaves;
     layers := leaves :: buildFrom (length leaves) leaves |}.

(** [this.layers[this.layers.length - 1][0]]; [None] is [undefined]. *)
Definition getRoot (t : MerkleTree) : option string :=
  last (layers t) ≫= head.

(** The loop of [getProof] over the layers below the root. *)
Fixpoint proofFrom (below : list (list string)) (currentIndex : nat)
    : list string :=
  match below with
  | [] => []
  | layer :: rest =>
      let isRightNode := (currentIndex mod 2 =? 1)%nat in
      let siblingIndex :=
        if isRightNode then (currentIndex - 1)%nat
        else (currentIndex + 1)%nat in
      match layer !! siblingIndex with
      | Some sibling => sibling :: proofFrom rest (currentIndex / 2)%nat
      | None => proofFrom rest (currentIndex / 2)%nat
      end
  end.

Definition getProof (t : MerkleTree) (index : nat) : list string :=
  proofFrom (JS.slice 0 (Some (-1)) (layers t)) index.

Definition verifyProof (leaf : string) (proof : list string) (root : string)
    : bool :=
  let currentHash :=
    foldl (λ currentHash sibling,
             keccak256 (toUtf8Bytes (currentHash +:+ sibling)))
      leaf proof in
  bool_decide (currentHash = root).

Definition calculateStateRoot (transactions : list Transaction)
    (previousRoot : string) : option string :=
  let txHashes :=
    BatchProcessor.generateTransactionHash JSON_stringify toUtf8Bytes
      keccak256 <$> transactions in
  getRoot (new (previousRoot :: txHashes)).

Definition verifyStateRoot (transactions : list Transaction)
    (previousRoot expectedRoot : string) : bool :=
  bool_decide (calculateStateRoot transactions previousRoot
               = Some expectedRoot).

End Tree.

End Merkle.

(** ** Logger ([core/utils/logger]) *)

Module Logger.

Inductive LogLevel := DEBUG | INFO | WARN | ERROR | FATAL.

#[global] Instance LogLevel_eq_dec : EqDecision LogLevel.
Proof. solve_decision. Defined.

Record LogEntry := mkLogEntry {
  timestamp : string;
  level : LogLevel;
  message : string;
  context : option string;
  err : option Exn                     (* the [error] field *)
}.

Record Logger := mkLogger {
  logLevel : LogLevel;
  logs : list LogEntry
}.

(** The private constructor. *)
Definition new : Logger := {| logLevel := INFO; logs := [] |}.

Definition setLogLevel (l : LogLevel) (lg : Logger) : Logger :=
  {| logLevel := l; logs := logs lg |}.

Definition getLogLevel (lg : Logger) : LogLevel := logLevel lg.

(** [arr.indexOf(x)]: the first position of [x], or -1. *)
Fixpoint indexOfFrom {A} `{EqDecision A} (x : A) (arr : list A) (i : Z) : Z :=
  match arr with
  | [] => -1
  | y :: rest => if decide (y = x) then i else indexOfFrom x rest (i + 1)
  end.

Definition indexOf {A} `{EqDecision A} (arr : list A) (x : A) : Z :=
  indexOfFrom x arr 0.

Definition shouldLog (l : LogLevel) (lg : Logger) : bool :=
  let levels := [DEBUG; INFO; WARN; ERROR; FATAL] in
  indexOf levels l >=? indexOf levels (logLevel lg).

(** [log(level, message, context, error)] at time [now]; the console output
    of [printLog] is not part of the state. *)
Definition log (now : string) (l : LogLevel) (message : string)
    (context : option string) (error : option Exn) (lg : Logger) : Logger :=
  {| logLevel := logLevel lg;
     logs := logs lg ++ [{| timestamp := now; level := l;
                            message := message; context := context;
                            err := error |}] |}.

Definition debug (now message : string) (context : option string)
    (lg : Logger) : Logger :=
  if shouldLog DEBUG lg then log now DEBUG message context None lg else lg.

Definition info (now message : string) (context : option string)
    (lg : Logger) : Logger :=
  if shouldLog INFO lg then log now INFO message context None lg else lg.

Definition warn (now message : string) (context : option string)
    (lg : Logger) : Logger :=
  if shouldLog WARN lg then log now WARN message context None lg else lg.

Definition error (now message : string) (error : option Exn)
    (context : option string) (lg : Logger) : Logger :=
  if shouldLog ERROR lg then log now ERROR message context error lg else lg.

Definition fatal (now message : string) (error : option Exn)
    (context : option string) (lg : Logger) : Logger :=
  if shouldLog FATAL lg then log now FATAL message context error lg else lg.

Definition getLogs (lg : Logger) : list LogEntry := logs lg.

Definition clearLogs (lg : Logger) : Logger :=
  {| logLevel := logLevel lg; logs := [] |}.

Definition getLogsByLevel (l : LogLevel) (lg : Logger) : list LogEntry :=
  filter (λ entry, level entry = l) (logs lg).

Definition getErrorLogs (lg : Logger) : list LogEntry :=
  filter (λ entry, level entry = ERROR ∨ level entry = FATAL) (logs lg).

(** A call of the method named after the level. *)
Definition emit (l : LogLevel) (now message : string)
    (context : option string) (e : option Exn) (lg : Logger) : Logger :=
  match l with
  | DEBUG => debug now message context lg
  | INFO => info now message context lg
  | WARN => warn now message context lg
  | ERROR => error now message e context lg
  | FATAL => fatal now message e context lg
  end.

(** The severity order of the levels. *)
Definition rank (l : LogLevel) : nat :=
  match l with
  | DEBUG => 0 | INFO => 1 | WARN => 2 | ERROR => 3 | FATAL => 4
  end.

(** Only [error] and [fatal] take an error object. *)
Definition carriesError (l : LogLevel) : bool :=
  match l with
  | ERROR | FATAL => true
  | _ => false
  end.

End Logger.

(** ** RollupSequencer: timer and counters ([core/sequencer]) *)

Module SequencerLifecycle.

Import Sequencer.

(** The sequencer together with its [intervalId] and the timers the runtime
    holds ([setInterval] registers one, [clearInterval] removes it). *)
Record Node := mkNode {
  rollupSequencer : RollupSequencer;
  intervalId : option nat;
  activeTimers : gset nat;
  nextTimer : nat
}.

Definition new : Node :=
  {| rollupSequencer := Sequencer.new; intervalId := None;
     activeTimers := ∅; nextTimer := 0 |}.

Definition setRunning (b : bool) (r : RollupSequencer) : RollupSequencer :=
  {| isRunning := b; lastBatchTimestamp := lastBatchTimestamp r;
     totalBatches := totalBatches r |}.

(** [start(batchInterval, vKeyHash)] *)
Definition start (n : Node) : Node :=
  if isRunning (rollupSequencer n) then n
  else
    {| rollupSequencer := setRunning true (rollupSequencer n);
       intervalId := Some (nextTimer n);
       activeTimers := {[nextTimer n]} ∪ activeTimers n;
       nextTimer := S (nextTimer n) |}.

(** [stop()] *)
Definition stop (n : Node) : Node :=
  if negb (isRunning (rollupSequencer n)) then n
  else
    match intervalId n with
    | Some id =>
        {| rollupSequencer := setRunning false (rollupSequencer n);
           intervalId := None;
           activeTimers := activeTimers n ∖ {[id]};
           nextTimer := nextTimer n |}
    | None =>
        {| rollupSequencer := setRunning false (rollupSequencer n);
           intervalId := None;
           activeTimers := activeTimers n;
           nextTimer := nextTimer n |}
    end.

Definition withSequencer (r : RollupSequencer) (n : Node) : Node :=
  {| rollupSequencer := r; intervalId := intervalId n;
     activeTimers := activeTimers n; nextTimer := nextTimer n |}.

(** [processBatch] after [processPendingTransactions] has settled with
    [outcome], at time [now] (seconds). *)
Definition processBatch_settle (outcome : Exn + list ProofResult) (now : Z)
    (n : Node) : list ProofResult * Node :=
  match outcome with
  | inr proofs =>
      if (0 <? Z.of_nat (length proofs)) then
        (proofs,
         withSequencer
           {| isRunning := isRunning (rollupSequencer n);
              lastBatchTimestamp := now;
              totalBatches :=
                totalBatches (rollupSequencer n) + Z.of_nat (length proofs) |}
           n)
      else (proofs, n)
  | inl _ => ([], n)
  end.

(** [forceBatch] after [createAndPostBatch] has settled. *)
Definition forceBatch_settle (outcome : Exn + ProofResult) (now : Z)
    (n : Node) : (Exn + ProofResult) * Node :=
  match outcome with
  | inr proof =>
      (inr proof,
       withSequencer
         {| isRunning := isRunning (rollupSequencer n);
            lastBatchTimestamp := now;
            totalBatches := totalBatches (rollupSequencer n) + 1 |}
         n)
  | inl e => (inl e, n)
  end.

Record SequencerStatus := mkStatus {
  stIsRunning : bool;
  stPendingTransactions : Z;
  stLastBatchTimestamp : Z;
  stTotalBatches : Z
}.

Definition getStatus (pool : BatchProcessor.State) (n : Node)
    : SequencerStatus :=
  {| stIsRunning := isRunning (rollupSequencer n);
     stPendingTransactions := BatchProcessor.getPendingTransactionCount pool;
     stLastBatchTimestamp := lastBatchTimestamp (rollupSequencer n);
     stTotalBatches := totalBatches (rollupSequencer n) |}.

Inductive Event :=
  | Start
  | Stop
  | TickSettled (outcome : Exn + list ProofResult) (now : Z)
  | ForceSettled (outcome : Exn + ProofResult) (now : Z).

Definition step (n : Node) (ev : Event) : Node :=
  match ev with
  | Start => start n
  | Stop => stop n
  | TickSettled outcome now => (processBatch_settle outcome now n).2
  | ForceSettled outcome now => (forceBatch_settle outcome now n).2
  end.

Definition run (events : list Event) : Node := foldl step new events.

(** The number of proofs an event reports. *)
Definition produced (ev : Event) : Z :=
  match ev with
  | TickSettled (inr proofs) _ => Z.of_nat (length proofs)
  | ForceSettled (inr _) _ => 1
  | _ => 0
  end.

(** The runtime holds the timer stored in [intervalId] and no other, and a
    timer is stored exactly while the sequencer is running. *)
Definition timerInvariant (n : Node) : Prop :=
  activeTimers n = from_option singleton ∅ (intervalId n)
  ∧ (isRunning (rollupSequencer n) = true ↔ is_Some (intervalId n)).

End SequencerLifecycle.

(** ** Further concrete inputs used in the examples *)

Module MoreFixtures.

Import StateManager Fixtures.

(** A transfer whose nonce, gas limit and gas price are all [NaN]. *)
Definition txNaN : RawIntake.Transaction :=
  {| RawIntake.from := alice; RawIntake.to := bob; RawIntake.value := "1";
     RawIntake.data := "0x"; RawIntake.nonce := JS.NaN;
     RawIntake.gasLimit := JS.NaN; RawIntake.gasPrice := JS.NaN |}.

(** The contract deployed at [root0] with a verifier that rejects. *)
Definition strictChain : Ledger :=
  Contract.asLedger (Contract.deploy root0 false).

(** A contract view with six batches of which number 2 cannot be read. *)
Definition sixBatches : StateStore.Reads :=
  {| StateStore.getCurrentBatchIndex := inr 6;
     StateStore.getBatch := λ i,
       if bool_decide (i = 2) then inl (SettlementError "call reverted")
       else inr {| StateStore.cbStateRoot := JS.numberToString i;
                   StateStore.cbTransactionHashes := [];
                   StateStore.cbTimestamp := 100 + i;
                   StateStore.cbFinalized := true |} |}.

(** Stand-ins for the string primitives of the balance store: lower-casing
    of the letters A–Z, and decimal printing of a balance. *)
Definition lowerChar (c : Ascii.ascii) : Ascii.ascii :=
  let n := Ascii.N_of_ascii c in
  if ((65 <=? n) && (n <=? 90))%N then Ascii.ascii_of_N (n + 32) else c.

Fixpoint lowerAscii (s : string) : string :=
  match s with
  | EmptyString => EmptyString
  | String c rest => String (lowerChar c) (lowerAscii rest)
  end.

Definition carol : string := "0xABCDEFabcdefABCDEFabcdefABCDEFabcdefABCD".
Definition dave : string := "0x00000000000000000000000000000000000000d4".

(** A store in which [carol] holds 100 and [dave] holds 5. *)
Definition funded : StateRootManager :=
  StateStore.setBalance lowerAscii dave "5"
    (StateStore.setBalance lowerAscii carol "100" StateManager.new).

Definition pay (sender recipient : string) (amount : Z) (ok : bool)
    : StateStore.StateTransition :=
  {| StateStore.from := sender; StateStore.to := recipient;
     StateStore.value := amount; StateStore.data := "0x";
     StateStore.nonce := 0; StateStore.gasLimit := 21000;
     StateStore.gasPrice := 1; StateStore.gasUsed := 21000;
     StateStore.success := ok; StateStore.logs := [];
     StateStore.returnData := "0x"; StateStore.blockNumber := 1;
     StateStore.blockTimestamp := 0 |}.

(** A digest stand-in that is injective and never empty. *)
Definition taggedDigest (b : list Byte.byte) : string :=
  "h" +:+ String.string_of_list_byte b.

End MoreFixtures.

(** * Properties *)

(** ** StateRootManager *)

Module StateManagerProps.

Import StateManager Fixtures.

(** The single submission, case by case on what the ledger answers. *)
Lemma submitStateUpdate_cases ledger now proof vKeyHash w :
  submitStateUpdate ledger now proof vKeyHash w =
  match currentStateRoot ledger with
  | inl e => (inl e, logged CallCurrentStateRoot w)
  | inr currentRoot =>
      if bool_decide (currentRoot = oldStateRoot (publicValues proof)) then
        let submit :=
          CallSubmitBatch (proofData proof) (publicValues proof) vKeyHash in
        match submitBatch ledger (proofData proof) (publicValues proof)
                vKeyHash with
        | inl e => (inl e, logged submit (logged CallCurrentStateRoot w))
        | inr _ =>
            (inr true,
             {| mgr := recordProof now proof (mgr w);
                calls := calls w ++ [CallCurrentStateRoot] ++ [submit] |})
        end
      else (inl InvalidTransition, logged CallCurrentStateRoot w)
  end.
Proof.
  unfold submitStateUpdate, getCurrentStateRoot, verifyStateTransition,
    await_ledger, logged, mbind, SE_bind, mret, SE_ret, try_rethrow, throw,
    modify, saveState.
  destruct (currentStateRoot ledger) as [e | currentRoot]; [done |].
  cbn.
  destruct (decide (currentRoot = oldStateRoot (publicValues proof)))
    as [Heq | Hne].
  - rewrite (bool_decide_eq_false_2 (currentRoot ≠ _)) by (intros H; done).
    rewrite (bool_decide_eq_false_2 (newStateRoot _ ≠ _)) by (intros H; done).
    rewrite bool_decide_eq_true_2 by done. cbn.
    destruct (submitBatch ledger _ _ _) as [e | []]; cbn; [done |].
    by rewrite <- app_assoc.
  - rewrite (bool_decide_eq_true_2 (currentRoot ≠ _)) by done.
    by rewrite bool_decide_eq_false_2.
Qed.

(** The aggregate submission, case by case on what the ledger answers: the
    declared roots of the transitions are not inspected. *)
Lemma submitAggregatedStateUpdates_cases ledger now first rest vKeyHash w :
  let proofResults := first :: rest in
  let submit :=
    CallSubmitAggregatedBatch (proofData first)
      (publicValues <$> proofResults) vKeyHash in
  submitAggregatedStateUpdates ledger now proofResults vKeyHash w =
  match currentStateRoot ledger with
  | inl e => (inl e, logged CallCurrentStateRoot w)
  | inr _ =>
      match submitAggregatedBatch ledger (proofData first)
              (publicValues <$> proofResults) vKeyHash with
      | inl e => (inl e, logged submit (logged CallCurrentStateRoot w))
      | inr _ =>
          (inr true,
           {| mgr := foldl (λ acc proof, recordProof now proof acc) (mgr w)
                       proofResults;
              calls := calls w ++ [CallCurrentStateRoot] ++ [submit] |})
      end
  end.
Proof.
  intros proofResults submit.
  unfold submitAggregatedStateUpdates, getCurrentStateRoot,
    await_ledger, logged, mbind, SE_bind, mret, SE_ret, try_rethrow, throw,
    modify, saveState.
  destruct (currentStateRoot ledger) as [e | currentRoot]; [done |].
  cbn.
  destruct (submitAggregatedBatch ledger _ _ _) as [e | []]; cbn; [done |].
  by rewrite <- app_assoc.
Qed.

(** C4.  When the ledger reports a current root, a single submission whose
    proof declares a different old root throws "Invalid state transition",
    sends no submission to the ledger (the only call made is the read of the
    current root) and leaves the manager as it was; when the declared old
    root is the current root, the proof is submitted to the ledger. *)
Theorem submitStateUpdate_guards_old_root
    ledger now proof vKeyHash w currentRoot :
  currentStateRoot ledger = inr currentRoot →
  (currentRoot ≠ oldStateRoot (publicValues proof) →
   ∃ w', submitStateUpdate ledger now proof vKeyHash w
           = (inl InvalidTransition, w')
         ∧ mgr w' = mgr w
         ∧ calls w' = calls w ++ [CallCurrentStateRoot]
         ∧ filter (λ c, isSubmission c = true) (calls w')
           = filter (λ c, isSubmission c = true) (calls w))
  ∧ (currentRoot = oldStateRoot (publicValues proof) →
     ∃ r w', submitStateUpdate ledger now proof vKeyHash w = (r, w')
           ∧ calls w' = calls w ++
               [CallCurrentStateRoot;
                CallSubmitBatch (proofData proof) (publicValues proof)
                  vKeyHash]).
Proof.
  intros Hroot. rewrite submitStateUpdate_cases, Hroot. split.
  - intros Hne. rewrite bool_decide_eq_false_2 by done.
    eexists. split; [done |]. cbn. repeat split.
    rewrite filter_app. cbn. by rewrite app_nil_r.
  - intros Heq. rewrite bool_decide_eq_true_2 by done. cbn.
    destruct (submitBatch ledger _ _ _) as [e | ?]; do 2 eexists;
      (split; [done |]); cbn; by rewrite <- ?app_assoc.
Qed.

Lemma submitStateUpdate_guards_old_root_witness :
  currentStateRoot (acceptingLedger root0) = inr root0
  ∧ ((root0 ≠ oldStateRoot (publicValues staleProof) →
      ∃ w', submitStateUpdate (acceptingLedger root0) 0 staleProof []
              freshWorld = (inl InvalidTransition, w')
            ∧ mgr w' = mgr freshWorld
            ∧ calls w' = calls freshWorld ++ [CallCurrentStateRoot]
            ∧ filter (λ c, isSubmission c = true) (calls w')
              = filter (λ c, isSubmission c = true) (calls freshWorld))
     ∧ (root0 = oldStateRoot (publicValues staleProof) →
        ∃ r w', submitStateUpdate (acceptingLedger root0) 0 staleProof []
                  freshWorld = (r, w')
              ∧ calls w' = calls freshWorld ++
                  [CallCurrentStateRoot;
                   CallSubmitBatch (proofData staleProof)
                     (publicValues staleProof) []])).
Proof.
  split; [reflexivity |].
  apply (submitStateUpdate_guards_old_root (acceptingLedger root0) 0
           staleProof [] freshWorld root0).
  reflexivity.
Defined.

(** C8.  After a single submission that returned [true], the root history
    read through [getStateHistory] holds, at the proof's batch index, exactly
    the proof's declared new state root. *)
Theorem submitStateUpdate_records_new_root ledger now proof vKeyHash w w' :
  submitStateUpdate ledger now proof vKeyHash w = (inr true, w') →
  getStateHistory (mgr w') !! Types.batchIndex proof
    = Some (newStateRoot (publicValues proof)).
Proof.
  rewrite submitStateUpdate_cases.
  destruct (currentStateRoot ledger) as [e | currentRoot]; [done |].
  case_bool_decide; [| done].
  destruct (submitBatch ledger _ _ _) as [e | ?]; [done |].
  intros [= <-]. cbn. apply lookup_insert_eq.
Qed.

Lemma submitStateUpdate_records_new_root_witness :
  let w' := {| mgr := recordProof 0 (mockProof 3) (mgr freshWorld);
               calls := [CallCurrentStateRoot;
                         CallSubmitBatch (proofData (mockProof 3))
                           (publicValues (mockProof 3)) []] |} in
  submitStateUpdate (acceptingLedger root0) 0 (mockProof 3) [] freshWorld
    = (inr true, w')
  ∧ getStateHistory (mgr w') !! 3 = Some root1.
Proof.
  intros w'.
  assert (H : submitStateUpdate (acceptingLedger root0) 0 (mockProof 3) []
                freshWorld = (inr true, w')) by reflexivity.
  split; [exact H |].
  exact (submitStateUpdate_records_new_root _ _ _ _ _ _ H).
Defined.

(** Whatever the transitions declare, an aggregate the ledger accepts is
    committed in full. *)
Lemma submitAggregated_commits_when_ledger_accepts
    ledger now first rest vKeyHash w currentRoot :
  currentStateRoot ledger = inr currentRoot →
  submitAggregatedBatch ledger (proofData first)
    (publicValues <$> first :: rest) vKeyHash = inr tt →
  ∃ w', submitAggregatedStateUpdates ledger now (first :: rest) vKeyHash w
          = (inr true, w')
        ∧ mgr w' = foldl (λ acc proof, recordProof now proof acc) (mgr w)
                     (first :: rest).
Proof.
  intros Hroot Hsubmit.
  rewrite submitAggregatedStateUpdates_cases, Hroot, Hsubmit. by eexists.
Qed.

(** An aggregate submission that throws has not touched the manager. *)
Lemma submitAggregated_failure_keeps_manager
    ledger now proofResults vKeyHash w e w' :
  submitAggregatedStateUpdates ledger now proofResults vKeyHash w
    = (inl e, w') →
  mgr w' = mgr w.
Proof.
  destruct proofResults as [| first rest].
  - unfold submitAggregatedStateUpdates, getCurrentStateRoot, await_ledger,
      mbind, SE_bind, try_rethrow, throw.
    destruct (currentStateRoot ledger); cbn; by intros [= _ <-].
  - rewrite submitAggregatedStateUpdates_cases.
    destruct (currentStateRoot ledger); [by intros [= _ <-] |].
    destruct (submitAggregatedBatch ledger _ _ _); by intros [= _ <-].
Qed.

(** The only exceptions an aggregate submission can surface are the
    ledger's own answers (or the runtime's on an empty list): the manager
    never raises one itself for a non-empty aggregate. *)
Lemma submitAggregated_error_is_the_ledgers
    ledger now first rest vKeyHash w e w' :
  submitAggregatedStateUpdates ledger now (first :: rest) vKeyHash w
    = (inl e, w') →
  currentStateRoot ledger = inl e
  ∨ submitAggregatedBatch ledger (proofData first)
      (publicValues <$> first :: rest) vKeyHash = inl e.
Proof.
  rewrite submitAggregatedStateUpdates_cases.
  destruct (currentStateRoot ledger); [intros [= -> _]; by left |].
  destruct (submitAggregatedBatch ledger _ _ _); [| done].
  intros [= -> _]. by right.
Qed.

(** The contract does enforce the chaining protocol: it rejects an aggregate
    whose root chain is broken, with an error of its own. *)
Lemma checkTransitions_rejects_broken_chain root index transitions :
  rootChainOk root transitions = false →
  ∃ reason,
    Contract.checkTransitions root index transitions
      = inl (SettlementError reason).
Proof.
  revert root index.
  induction transitions as [| t rest IH]; intros root index; cbn; [done |].
  intros Hbroken. apply andb_false_iff in Hbroken as [Hhead | Htail].
  - apply bool_decide_eq_false in Hhead.
    rewrite bool_decide_eq_true_2 by done. by eexists.
  - case_bool_decide; [by eexists |].
    case_bool_decide; [by eexists |]. by apply IH.
Qed.

(** With the contract as ledger a broken aggregate is refused and nothing
    is recorded, but what the caller sees is the contract's rejection. *)
Lemma submitAggregated_on_chain_broken c now first rest vKeyHash w :
  rootChainOk (Contract.currentStateRoot c)
    (publicValues <$> first :: rest) = false →
  ∃ reason w',
    submitAggregatedStateUpdates (Contract.asLedger c) now (first :: rest)
      vKeyHash w = (inl (SettlementError reason), w')
    ∧ mgr w' = mgr w.
Proof.
  intros Hbroken. rewrite submitAggregatedStateUpdates_cases.
  cbn [StateManager.currentStateRoot StateManager.submitAggregatedBatch
       Contract.asLedger].
  unfold Contract.submitAggregatedBatch.
  destruct (Contract.paused c); [by do 2 eexists |].
  case_bool_decide; [by do 2 eexists |].
  destruct (checkTransitions_rejects_broken_chain _
              (Contract.currentBatchIndex c) _ Hbroken) as [reason ->].
  by do 2 eexists.
Qed.

(** C1 (what the code does).  The aggregate holds the proofs of batches 0
    and 1, both declaring [root0 → root1], so the second transition does not
    start at the first one's new root; the ledger's current root is [root0].
    When the ledger resolves the call, the submission returns [true] instead
    of throwing "Invalid state transition", and both batch indices are
    written into [stateHistory] and [batchHistory].  When the ledger is the
    settlement contract, the call is refused and nothing is written, but the
    error is the contract's "InvalidStateRoot", not the manager's. *)
Theorem submitAggregated_broken_chain_is_committed :
  rootChainOk root0 (publicValues <$> brokenAggregate) = false
  ∧ (∃ w', submitAggregatedStateUpdates (acceptingLedger root0) 0
             brokenAggregate [] freshWorld = (inr true, w')
         ∧ stateHistory (mgr freshWorld) !! 1 = None
         ∧ stateHistory (mgr w') !! 0 = Some root1
         ∧ stateHistory (mgr w') !! 1 = Some root1
         ∧ stateRoot <$> batchHistory (mgr w') !! 1 = Some root1)
  ∧ (submitAggregatedStateUpdates onChain 0 brokenAggregate [] freshWorld).1
    = inl (SettlementError "InvalidStateRoot")
  ∧ SettlementError "InvalidStateRoot" ≠ InvalidTransition.
Proof.
  split; [by vm_compute |]. split; [| split; [by vm_compute | done]].
  destruct (submitAggregated_commits_when_ledger_accepts
              (acceptingLedger root0) 0 (mockProof 0) [mockProof 1] []
              freshWorld root0 eq_refl eq_refl) as (w' & Hrun & Hmgr).
  exists w'. split; [exact Hrun |]. rewrite Hmgr. by vm_compute.
Qed.

End StateManagerProps.

(** ** Array primitives *)

Module JSProps.

Lemma slice_prefix {A} (n : Z) (arr : list A) :
  0 ≤ n → JS.slice 0 (Some n) arr = take (Z.to_nat n) arr.
Proof.
  intros Hn. unfold JS.slice, JS.relIndex.
  set (len := Z.of_nat (length arr)).
  assert (Hlen : 0 ≤ len) by lia.
  rewrite (proj2 (Z.ltb_ge 0 0)) by lia.
  rewrite (proj2 (Z.ltb_ge n 0)) by lia.
  rewrite (Z.min_l 0 len) by lia.
  rewrite Z.sub_0_r. change (Z.to_nat 0) with 0%nat. rewrite drop_0.
  destruct (Z.le_gt_cases n len) as [Hle | Hgt].
  - by rewrite Z.min_l.
  - rewrite Z.min_r by lia. subst len. rewrite Nat2Z.id.
    rewrite !take_ge; [done | lia | lia].
Qed.

Lemma slice_suffix {A} (n : Z) (arr : list A) :
  0 ≤ n → JS.slice n None arr = drop (Z.to_nat n) arr.
Proof.
  intros Hn. unfold JS.slice, JS.relIndex.
  set (len := Z.of_nat (length arr)).
  rewrite (proj2 (Z.ltb_ge n 0)) by lia.
  destruct (Z.le_gt_cases n len) as [Hle | Hgt].
  - rewrite Z.min_l by done. apply take_ge. rewrite length_drop. lia.
  - rewrite Z.min_r by lia. subst len. rewrite Nat2Z.id.
    rewrite !drop_ge; [by rewrite take_nil | lia | lia].
Qed.

Section Sort.

Context {A : Type}.
Variable compare : A → A → Z.

Lemma insertBy_perm x arr : JS.insertBy compare x arr ≡ₚ x :: arr.
Proof.
  induction arr as [| y rest IH]; cbn; [done |].
  case_match; [done |]. rewrite IH. apply Permutation_swap.
Qed.

Lemma sort_perm arr : JS.sort compare arr ≡ₚ arr.
Proof.
  induction arr as [| x rest IH]; cbn; [done |].
  by rewrite insertBy_perm, IH.
Qed.

Lemma sort_length arr : length (JS.sort compare arr) = length arr.
Proof. by rewrite sort_perm. Qed.

(** The comparator orders by a key, larger keys first. *)
Variable key : A → Z.
Hypothesis compare_key : ∀ a b, compare a b = key b - key a.





End Sort.





(** Beyond 2^53 the low bits go: a half-way case goes to the even
    significand, anything else to the nearer double, and past the largest
    double the result is [Infinity]. *)
Lemma toDouble_rounds :
  JS.toDouble (2 ^ 53 + 1) = 2 ^ 53
  ∧ JS.toDouble (2 ^ 53 + 2) = 2 ^ 53 + 2
  ∧ JS.toDouble (2 ^ 53 + 3) = 2 ^ 53 + 4
  ∧ JS.toDouble (2 ^ 54 + 1) = 2 ^ 54
  ∧ JS.toDouble (2 ^ 54 + 3) = 2 ^ 54 + 4
  ∧ JS.toDouble (- (2 ^ 53 + 3)) = - (2 ^ 53 + 4)
  ∧ JS.toDouble (2 ^ 1024 - 2 ^ 970 - 1) = 2 ^ 1024 - 2 ^ 971
  ∧ JS.toDouble (2 ^ 1024 - 2 ^ 970) = JS.Infinity
  ∧ JS.mul (2 ^ 53) (2 ^ 980) = JS.Infinity.
Proof. repeat (apply conj); by vm_compute. Qed.

(** On integers the comparisons of the language are those of [Z]. *)
Lemma lt_ofZ a b : JS.lt (JS.ofZ a) (JS.ofZ b) = (a <? b).
Proof.
  unfold JS.lt, JS.ofZ, Qle_bool. cbn. rewrite !Z.mul_1_r.
  by rewrite Z.ltb_antisym.
Qed.

Lemma gt_ofZ a b : JS.gt (JS.ofZ a) (JS.ofZ b) = (a >? b).
Proof. unfold JS.gt. by rewrite lt_ofZ, Z.gtb_ltb. Qed.

End JSProps.

(** ** BatchProcessor *)

Module BatchProcessorProps.

Import BatchProcessor Fixtures.

Lemma calculateOptimalBatchSize_pos s : 1 ≤ calculateOptimalBatchSize s.
Proof. unfold calculateOptimalBatchSize. lia. Qed.

(** On a non-empty queue [createBatch] drains a non-empty prefix, sorts it
    and calls the prover with the current counter. *)
Lemma createBatch_start_nonempty s :
  pendingTransactions s ≠ [] →
  let k := Z.to_nat (calculateOptimalBatchSize s) in
  let drained := take k (pendingTransactions s) in
  createBatch_start s =
    (inr {| proverTransactions := optimizeBatch drained;
            proverBatchIndex := batchIndex s;
            frameTransactionCount := Z.of_nat (length drained);
            frameGasUsage := calculateGasUsage (optimizeBatch drained) |},
     setPending (drop k (pendingTransactions s)) s).
Proof.
  intros Hne k drained. unfold createBatch_start.
  rewrite bool_decide_eq_false_2
    by (destruct (pendingTransactions s); [done | cbn; lia]).
  pose proof (calculateOptimalBatchSize_pos s).
  rewrite JSProps.slice_prefix, JSProps.slice_suffix by lia. done.
Qed.

Lemma createBatch_start_empty s :
  pendingTransactions s = [] → createBatch_start s = (inl EmptyPool, s).
Proof. intros H. unfold createBatch_start. by rewrite H. Qed.



(** What [createBatch] hands to the prover, whatever the comparator: a
    permutation of the non-empty prefix it drained. *)
Lemma createBatch_start_drains s :
  pendingTransactions s ≠ [] →
  ∃ frame s' drained,
    createBatch_start s = (inr frame, s')
    ∧ drained ≠ []
    ∧ pendingTransactions s = drained ++ pendingTransactions s'
    ∧ proverTransactions frame = optimizeBatch drained
    ∧ proverTransactions frame ≡ₚ drained.
Proof.
  intros Hne. rewrite (createBatch_start_nonempty s Hne).
  set (k := Z.to_nat (calculateOptimalBatchSize s)).
  do 2 eexists. exists (take k (pendingTransactions s)).
  split; [reflexivity |]. cbn [proverTransactions pendingTransactions setPending].
  split.
  { pose proof (calculateOptimalBatchSize_pos s).
    destruct (pendingTransactions s); [done |].
    destruct k eqn:Hk; [lia | done]. }
  split; [by rewrite take_drop |].
  split; [done |]. apply JSProps.sort_perm.
Qed.




(** *** Batch indices *)

Lemma createBatch_start_index s frame s' :
  createBatch_start s = (inr frame, s') →
  proverBatchIndex frame = batchIndex s ∧ batchIndex s' = batchIndex s.
Proof.
  unfold createBatch_start, throw. case_bool_decide; [done |].
  by intros [= <- <-].
Qed.

Lemma createBatch_resume_index frame now outcome s proof s' :
  createBatch_resume frame now outcome s = (inr proof, s') →
  batchIndex s' = batchIndex s + 1.
Proof.
  unfold createBatch_resume, throw. destruct outcome; [done |].
  by intros [= _ <-].
Qed.

(** Calls to [createBatch] that are awaited one after the other are handed
    consecutive indices, starting at the counter. *)
Lemma createBatchesInSequence_consecutive now prover n s indices s' :
  createBatchesInSequence now prover n s = (indices, s') →
  ∀ (i : nat) k, indices !! i = Some k → k = batchIndex s + Z.of_nat i.
Proof.
  revert s indices s'.
  induction n as [| n IH]; intros s indices s'; cbn.
  { by intros [= <- _] i k. }
  destruct (createBatch_start s) as [[e | frame] s1] eqn:Hstart.
  { by intros [= <- _] i k. }
  apply createBatch_start_index in Hstart as [Hframe Hs1].
  destruct (createBatch_resume _ _ _ s1) as [[e | proof] s2] eqn:Hresume.
  { intros [= <- _] [| i] k; [| done]. cbn. intros [= <-]. lia. }
  apply createBatch_resume_index in Hresume.
  destruct (createBatchesInSequence now prover n s2) as [rest s3] eqn:Hrec.
  intros [= <- _] [| i] k; cbn.
  - intros [= <-]. lia.
  - intros Hk. rewrite (IH _ _ _ Hrec i k Hk). lia.
Qed.

(** Calls to [createBatch] that are started before any of them resumes all
    read the same counter. *)
Lemma launchBatches_same_index n s frames s' :
  launchBatches n s = (frames, s') →
  batchIndex s' = batchIndex s
  ∧ Forall (λ frame, proverBatchIndex frame = batchIndex s) frames.
Proof.
  revert s frames s'.
  induction n as [| n IH]; intros s frames s'; cbn.
  { by intros [= <- <-]. }
  case_bool_decide; [| by intros [= <- <-]].
  destruct (createBatch_start s) as [[e | frame] s1] eqn:Hstart.
  { pose proof Hstart as Hs. unfold createBatch_start, throw in Hs.
    revert Hs. case_bool_decide; [| done]. intros [= _ <-].
    by intros [= <- <-]. }
  apply createBatch_start_index in Hstart as [Hframe Hs1].
  destruct (launchBatches n s1) as [rest s2] eqn:Hrec.
  apply IH in Hrec as [Hs2 Hall].
  intros [= <- <-]. split; [congruence |].
  constructor; [done |]. by rewrite <- Hs1.
Qed.

(** C2 (what the code does).  The processor was initialised at
    ledger index 5, forms one-transaction batches and holds three pending
    transactions.  [processPendingTransactions] starts three [createBatch]
    calls before any of them resumes: each drains its own transaction, but
    all three call the prover with batch index 5, and all three proofs carry
    index 5; the counter then stands at 8, so indices 6 and 7 are never
    assigned.  Awaited one after the other, the same three calls are
    assigned 5, 6 and 7. *)
Theorem concurrent_createBatch_reuses_index :
  let pool := poolOf [tx1; tx2; tx3] in
  let run := processPendingTransactions_enter pool in
  let frames := launchedFrames run.1 in
  let settled := settleBatches 0 mockProver frames run.2 in
  getBatchIndex pool = 5
  ∧ (createBatchesInSequence 0 mockProver 3 pool).1 = [5; 6; 7]
  ∧ run.1 = Launched frames
  ∧ proverTransactions <$> frames = [[tx1]; [tx2]; [tx3]]
  ∧ proverBatchIndex <$> frames = [5; 5; 5]
  ∧ indexOfResult <$> settled.1 = [Some 5; Some 5; Some 5]
  ∧ getBatchIndex settled.2 = 8.
Proof.
  intros pool run frames settled.
  repeat (apply conj); vm_compute; reflexivity.
Qed.

(** *** Intake *)

Section Intake.

Variable isAddress : string → bool.
Variable BigInt : string → option Z.
Variable JSON_stringify : Transaction → string.
Variable toUtf8Bytes : string → list Byte.byte.
Variable keccak256 : list Byte.byte → string.

Local Abbreviation validate := (validateTransaction isAddress BigInt).
Local Abbreviation hashOf :=
  (generateTransactionHash JSON_stringify toUtf8Bytes keccak256).
Local Abbreviation add :=
  (addTransaction isAddress BigInt JSON_stringify toUtf8Bytes keccak256).

(** Validation reads the configuration and writes nothing. *)
Lemma validateTransaction_state tx s : (validate tx s).2 = s.
Proof.
  unfold validateTransaction, throw.
  repeat (case_match; try done).
Qed.

Lemma validateTransaction_config tx s s' :
  config s' = config s → (validate tx s').1 = (validate tx s).1.
Proof.
  intros Hcfg. unfold validateTransaction, throw. rewrite Hcfg.
  repeat (case_match; try done).
Qed.

Lemma addTransaction_cases tx s :
  add tx s =
  match validate tx s with
  | (inl e, _) => (inl e, s)
  | (inr _, _) =>
      if bool_decide (hashOf tx ∈ transactionHashes s) then (inr tt, s)
      else (inr tt,
            setHashes ({[hashOf tx]} ∪ transactionHashes s)
              (setPending (pendingTransactions s ++ [tx]) s))
  end.
Proof.
  unfold addTransaction, mbind, SE_bind.
  pose proof (validateTransaction_state tx s) as Hs.
  destruct (validate tx s) as [[e | []] s']; cbn in Hs; by subst s'.
Qed.

(** C7.  When the digest of a transaction is already in the digest set,
    [addTransaction] leaves the processor exactly as it was: nothing is
    appended to the queue and [getPendingTransactionCount] reports the same
    number; and for a transaction that passes validation the call returns
    normally, without raising an error. *)
Theorem addTransaction_duplicate_is_noop tx s :
  hashOf tx ∈ transactionHashes s →
  (add tx s).2 = s
  ∧ pendingTransactions (add tx s).2 = pendingTransactions s
  ∧ getPendingTransactionCount (add tx s).2 = getPendingTransactionCount s
  ∧ (validate tx s = (inr tt, s) → add tx s = (inr tt, s)).
Proof.
  intros Hdup.
  assert (Hstate : (add tx s).2 = s).
  { rewrite addTransaction_cases.
    destruct (validate tx s) as [[e | []] s']; [done |].
    by rewrite bool_decide_eq_true_2. }
  split; [exact Hstate |]. rewrite Hstate. repeat split.
  intros Hvalid. rewrite addTransaction_cases, Hvalid.
  by rewrite bool_decide_eq_true_2.
Qed.

(** An accepted transaction that is new is queued last and its digest
    recorded. *)
Lemma addTransaction_new tx s :
  validate tx s = (inr tt, s) →
  hashOf tx ∉ transactionHashes s →
  add tx s =
    (inr tt,
     setHashes ({[hashOf tx]} ∪ transactionHashes s)
       (setPending (pendingTransactions s ++ [tx]) s)).
Proof.
  intros Hvalid Hnew.
  by rewrite addTransaction_cases, Hvalid, bool_decide_eq_false_2.
Qed.

(** C5 (what the code does).  A transaction is accepted into an
    empty queue and then drained by [createBatch].  Its digest is still in
    the digest set although nothing is queued any more, and submitting the
    identical transaction again is dropped as a duplicate: the call returns
    normally and the queue stays empty. *)
Theorem drained_transaction_is_still_deduplicated tx s s1 frame s2 :
  pendingTransactions s = [] →
  add tx s = (inr tt, s1) →
  createBatch_start s1 = (inr frame, s2) →
  proverTransactions frame = [tx]
  ∧ pendingTransactions s2 = []
  ∧ hashOf tx ∈ transactionHashes s2
  ∧ add tx s2 = (inr tt, s2).
Proof.
  intros Hempty Hadd Hcreate.
  rewrite addTransaction_cases in Hadd.
  destruct (validate tx s) as [[e | []] sv] eqn:Hvalid; [done |].
  assert (pendingTransactions s1 = [tx]
          ∧ hashOf tx ∈ transactionHashes s1
          ∧ config s1 = config s) as (Hq & Hin & Hcfg).
  { revert Hadd. case_bool_decide as Hdup; intros [= <-].
    - rewrite createBatch_start_empty in Hcreate; done.
    - cbn. rewrite Hempty. split; [done |]. split; [set_solver | done]. }
  rewrite createBatch_start_nonempty in Hcreate by (by rewrite Hq).
  pose proof (calculateOptimalBatchSize_pos s1) as Hk.
  rewrite Hq in Hcreate.
  destruct (Z.to_nat (calculateOptimalBatchSize s1)) as [| k] eqn:Hk';
    [lia |].
  cbn [take drop] in Hcreate. rewrite take_nil, drop_nil in Hcreate.
  injection Hcreate as <- <-. cbn.
  split; [done |]. split; [done |]. split; [done |].
  set (s2 := setPending [] s1).
  assert (Hvalid2 : validate tx s2 = (inr tt, s2)).
  { pose proof (validateTransaction_config tx s s2) as H1.
    pose proof (validateTransaction_state tx s2) as H2.
    rewrite Hvalid in H1. destruct (validate tx s2) as [r2 sv2].
    cbn in H1, H2. rewrite H1, H2; [done | by rewrite <- Hcfg]. }
  rewrite addTransaction_cases, Hvalid2.
  by rewrite bool_decide_eq_true_2.
Qed.

End Intake.

Lemma addTransaction_duplicate_is_noop_witness :
  digestOf tx1 ∈ transactionHashes (poolOf [tx1])
  ∧ pendingTransactions (poolOf [tx1]) = [tx1]
  ∧ intake tx1 (poolOf [tx1]) = (inr tt, poolOf [tx1]).
Proof.
  assert (Hdup : digestOf tx1 ∈ transactionHashes (poolOf [tx1])).
  { apply (bool_decide_unpack _). by vm_compute. }
  split; [exact Hdup |]. split; [reflexivity |].
  apply (addTransaction_duplicate_is_noop isLowerHexAddress parseDecimal
           encodeTx utf8 digest tx1 (poolOf [tx1]) Hdup).
  reflexivity.
Defined.

Lemma drained_transaction_is_still_deduplicated_witness :
  let s1 := poolOf [tx1] in
  let run := createBatch_start s1 in
  pendingTransactions emptyPool = []
  ∧ intake tx1 emptyPool = (inr tt, s1)
  ∧ run.1 = inr {| proverTransactions := [tx1]; proverBatchIndex := 5;
                   frameTransactionCount := 1; frameGasUsage := 21000 |}
  ∧ pendingTransactions run.2 = []
  ∧ digestOf tx1 ∈ transactionHashes run.2
  ∧ intake tx1 run.2 = (inr tt, run.2).
Proof.
  intros s1 run.
  assert (H0 : pendingTransactions emptyPool = []) by reflexivity.
  assert (H1 : intake tx1 emptyPool = (inr tt, s1)) by reflexivity.
  assert (H2 : createBatch_start s1 =
               (inr {| proverTransactions := [tx1]; proverBatchIndex := 5;
                       frameTransactionCount := 1; frameGasUsage := 21000 |},
                run.2)) by reflexivity.
  destruct (drained_transaction_is_still_deduplicated isLowerHexAddress
              parseDecimal encodeTx utf8 digest tx1 emptyPool s1 _ _
              H0 H1 H2) as (_ & Hq & Hin & Hadd).
  split; [exact H0 |]. split; [exact H1 |]. split; [exact (f_equal fst H2) |].
  split; [exact Hq |]. split; [exact Hin |]. exact Hadd.
Defined.

End BatchProcessorProps.

(** ** RollupSequencer *)

Module SequencerProps.

Import BatchProcessor Sequencer Fixtures.

(** A timer tick that arrives while [processPendingTransactions] is running
    returns at once and changes nothing. *)
Lemma processBatch_skipped_while_processing sys :
  isProcessing (batchProcessor sys) = true →
  processBatch_enter sys = (ReturnedEmpty, sys).
Proof.
  intros Hflag. unfold processBatch_enter. rewrite Hflag.
  by case_match.
Qed.

(** [forceBatch] starts a batch whenever something is pending, whatever the
    [processing] flag says, and does not set the flag. *)
Lemma forceBatch_ignores_processing sys :
  pendingTransactions (batchProcessor sys) ≠ [] →
  ∃ frame p',
    forceBatch_enter sys =
      (CycleStarted,
       {| batchProcessor := p'; sequencer := sequencer sys;
          inFlight := inFlight sys ++ [ForceCycle frame] |})
    ∧ processing p' = processing (batchProcessor sys).
Proof.
  intros Hne. unfold forceBatch_enter, getPendingTransactionCount.
  destruct (Z.of_nat (length (pendingTransactions (batchProcessor sys))) =? 0)
    eqn:Hcount.
  { apply Z.eqb_eq in Hcount.
    destruct (pendingTransactions (batchProcessor sys)); [done | cbn in *; lia]. }
  rewrite (BatchProcessorProps.createBatch_start_nonempty _ Hne).
  by do 2 eexists.
Qed.

(** C3 (what the code does).  Four transactions are pending in a
    processor that forms one-transaction batches.  A timer tick starts a
    cycle: the flag is set, three batches are launched, one transaction
    stays queued.  A [forceBatch] issued now, before that cycle has
    finished, is not refused: it starts a second cycle, so two cycles are in
    flight, and its batch is given index 5 like the three already launched.
    In the other order, a tick that arrives while a forced cycle is running
    is not skipped either. *)
Theorem forceBatch_starts_second_cycle :
  let sys0 := {| batchProcessor := poolOf [tx1; tx2; tx3; tx4];
                 sequencer := Sequencer.new; inFlight := [] |} in
  let tick := processBatch_enter sys0 in
  let force := forceBatch_enter tick.2 in
  let force' := forceBatch_enter sys0 in
  let tick' := processBatch_enter force'.2 in
  (tick.1 = CycleStarted
   ∧ cyclesInFlight tick.2 = 1%nat
   ∧ isProcessing (batchProcessor tick.2) = true
   ∧ (processBatch_enter tick.2).1 = ReturnedEmpty
   ∧ force.1 = CycleStarted
   ∧ cyclesInFlight force.2 = 2%nat
   ∧ indicesInFlight force.2 = [5; 5; 5; 5])
  ∧ (force'.1 = CycleStarted
     ∧ cyclesInFlight force'.2 = 1%nat
     ∧ tick'.1 = CycleStarted
     ∧ cyclesInFlight tick'.2 = 2%nat).
Proof.
  intros sys0 tick force force' tick'.
  repeat (apply conj); vm_compute; reflexivity.
Qed.

End SequencerProps.

(** ** ProofGenerator *)

Module ProofGeneratorProps.

Import ProofGenerator Fixtures.

(** A request whose key is in the cache is answered from the cache: the
    state, and with it the list of prover invocations, is unchanged. *)
Lemma generateProof_cache_hit transactions batchIndex outcome s proof :
  proofCache s !! generateCacheKey transactions batchIndex = Some proof →
  generateProof transactions batchIndex outcome s = (Settled (inr proof), s).
Proof.
  intros Hhit. unfold generateProof, generateProof_start. by rewrite Hhit.
Qed.

(** A request that misses the cache while nothing is pending for its index
    invokes the prover once and settles with the prover's answer. *)
Lemma generateProof_miss transactions batchIndex outcome s :
  proofCache s !! generateCacheKey transactions batchIndex = None →
  pendingProofs s !! batchIndex = None →
  generateProof transactions batchIndex outcome s =
    (Settled outcome,
     {| pendingProofs := pendingProofs s;
        proofCache :=
          match outcome with
          | inr proof =>
              <[generateCacheKey transactions batchIndex := proof]>
                (proofCache s)
          | inl _ => proofCache s
          end;
        proverCalls := proverCalls s ++ [(transactions, batchIndex)] |}).
Proof.
  intros Hmiss Hidle.
  unfold generateProof, generateProof_start. rewrite Hmiss, Hidle.
  unfold generateProof_resume.
  destruct outcome; cbn; by rewrite delete_insert_id.
Qed.

(** A completed request is served from the cache when it is repeated. *)
Lemma generateProof_repeat transactions batchIndex proof outcome s :
  proofCache s !! generateCacheKey transactions batchIndex = None →
  pendingProofs s !! batchIndex = None →
  let s1 := (generateProof transactions batchIndex (inr proof) s).2 in
  generateProof transactions batchIndex outcome s1
    = (Settled (inr proof), s1)
  ∧ proverCalls s1 = proverCalls s ++ [(transactions, batchIndex)].
Proof.
  intros Hmiss Hidle. rewrite generateProof_miss by done. cbn.
  split; [| done].
  apply generateProof_cache_hit. cbn. apply lookup_insert_eq.
Qed.

(** The cache key is built from sender, recipient, amount and nonce only. *)
Lemma generateCacheKey_ignores_other_fields txsA txsB batchIndex :
  Forall2 sameKeyFields txsA txsB →
  generateCacheKey txsA batchIndex = generateCacheKey txsB batchIndex.
Proof.
  intros Hsame. unfold generateCacheKey. do 3 f_equal.
  induction Hsame as [| a b restA restB (Hf & Ht & Hv & Hn) _ IH];
    [done |].
  cbn [fmap list_fmap]. by rewrite IH, Hf, Ht, Hv, Hn.
Qed.

(** C6 (what the code does).  A proof for batch 5 over [tx1] is
    generated and cached.  A second request for batch 5 carries a
    transaction with the same sender, recipient, amount and nonce but another
    payload, gas limit and gas price: it has the same cache key, is answered
    with the first request's proof, and the prover is not invoked for it. *)
Theorem generateProof_serves_other_set_from_cache :
  let s1 := (generateProof [tx1] 5 (inr proofA) ProofGenerator.new).2 in
  let second := generateProof [tx1'] 5 (inr proofB) s1 in
  [tx1] ≠ [tx1']
  ∧ data tx1 ≠ data tx1'
  ∧ gasLimit tx1 ≠ gasLimit tx1'
  ∧ gasPrice tx1 ≠ gasPrice tx1'
  ∧ generateCacheKey [tx1] 5 = generateCacheKey [tx1'] 5
  ∧ proverCalls s1 = [([tx1], 5)]
  ∧ second.1 = Settled (inr proofA)
  ∧ proofA ≠ proofB
  ∧ proverCalls second.2 = [([tx1], 5)].
Proof.
  intros s1 second.
  repeat (apply conj); try (vm_compute; reflexivity); by vm_compute.
Qed.

(** While the prover works, the request is registered under its batch
    index; the [finally] block removes that entry when the prover rejects
    and leaves the cache alone, in whatever state the generator is by then. *)
Lemma generateProof_start_registers transactions batchIndex s :
  proofCache s !! generateCacheKey transactions batchIndex = None →
  pendingProofs s !! batchIndex = None →
  ∃ promise s1,
    generateProof_start transactions batchIndex s
      = (Invoked promise (generateCacheKey transactions batchIndex), s1)
    ∧ pendingProofs s1 !! batchIndex = Some promise
    ∧ proofCache s1 = proofCache s
    ∧ proverCalls s1 = proverCalls s ++ [(transactions, batchIndex)].
Proof.
  intros Hmiss Hidle. unfold generateProof_start. rewrite Hmiss, Hidle.
  do 2 eexists. split; [done |]. cbn. by rewrite lookup_insert_eq.
Qed.

Lemma generateProof_resume_rejected cacheKey batchIndex e s :
  ∃ s', generateProof_resume cacheKey batchIndex (inl e) s = (inl e, s')
        ∧ proofCache s' = proofCache s
        ∧ pendingProofs s' !! batchIndex = None
        ∧ proverCalls s' = proverCalls s.
Proof.
  eexists. split; [done |]. cbn. by rewrite lookup_delete_eq.
Qed.

(** C10.  When a request reaches the prover (its key is not cached and no
    request for its batch index is pending) and the prover rejects, the
    caller receives that error, the cache is unchanged, no pending entry is
    left for the batch index, and a later request for the same transactions
    and index invokes the prover again and settles with whatever the prover
    answers then. *)
Theorem generateProof_failure_is_not_cached
    transactions batchIndex e s :
  proofCache s !! generateCacheKey transactions batchIndex = None →
  pendingProofs s !! batchIndex = None →
  let failed := generateProof transactions batchIndex (inl e) s in
  failed.1 = Settled (inl e)
  ∧ proofCache failed.2 = proofCache s
  ∧ pendingProofs failed.2 !! batchIndex = None
  ∧ proverCalls failed.2 = proverCalls s ++ [(transactions, batchIndex)]
  ∧ ∀ outcome,
      let retried := generateProof transactions batchIndex outcome failed.2 in
      retried.1 = Settled outcome
      ∧ proverCalls retried.2
        = proverCalls s ++ [(transactions, batchIndex);
                            (transactions, batchIndex)].
Proof.
  intros Hmiss Hidle failed. subst failed.
  rewrite generateProof_miss by done. cbn.
  do 4 (split; [done |]).
  intros outcome. rewrite generateProof_miss by done. cbn.
  split; [done |]. by rewrite <- app_assoc.
Qed.

Lemma generateProof_failure_is_not_cached_witness :
  let s := ProofGenerator.new in
  let failed := generateProof [tx1] 5 (inl (ProverError "timeout")) s in
  proofCache s !! generateCacheKey [tx1] 5 = None
  ∧ pendingProofs s !! 5 = None
  ∧ failed.1 = Settled (inl (ProverError "timeout"))
  ∧ proofCache failed.2 = proofCache s
  ∧ pendingProofs failed.2 !! 5 = None
  ∧ proverCalls failed.2 = proverCalls s ++ [([tx1], 5)]
  ∧ ∀ outcome,
      let retried := generateProof [tx1] 5 outcome failed.2 in
      retried.1 = Settled outcome
      ∧ proverCalls retried.2 = proverCalls s ++ [([tx1], 5); ([tx1], 5)].
Proof.
  intros s failed.
  assert (H1 : proofCache s !! generateCacheKey [tx1] 5 = None)
    by reflexivity.
  assert (H2 : pendingProofs s !! 5 = None) by reflexivity.
  split; [exact H1 |]. split; [exact H2 |].
  exact (generateProof_failure_is_not_cached [tx1] 5
           (ProverError "timeout") s H1 H2).
Defined.

End ProofGeneratorProps.

(** ** BatchProcessor: further properties *)

Module BatchProcessorMore.

Import BatchProcessor BatchProcessorOps Fixtures.

Section Intake.

Variable isAddress : string → bool.
Variable BigInt : string → option Z.
Variable JSON_stringify : Transaction → string.
Variable toUtf8Bytes : string → list Byte.byte.
Variable keccak256 : list Byte.byte → string.

Local Abbreviation validate := (validateTransaction isAddress BigInt).
Local Abbreviation hashOf :=
  (generateTransactionHash JSON_stringify toUtf8Bytes keccak256).
Local Abbreviation add :=
  (addTransaction isAddress BigInt JSON_stringify toUtf8Bytes keccak256).
Local Abbreviation addMany :=
  (addTransactions isAddress BigInt JSON_stringify toUtf8Bytes keccak256).
Local Abbreviation digests :=
  (queuedDigests JSON_stringify toUtf8Bytes keccak256).
Local Abbreviation wf := (wellFormed isAddress BigInt).

Lemma truthy_false s : truthy s = false ↔ s = "".
Proof.
  unfold truthy. rewrite negb_false_iff. apply String.eqb_eq.
Qed.

(** Validation succeeds exactly on the well-formed transactions. *)
Lemma validateTransaction_accepts tx s :
  validate tx s = (inr tt, s) ↔ wf (config s) tx.
Proof.
  unfold validateTransaction, wellFormed, throw. split.
  - intros H.
    destruct (isAddress (from tx)); [| done].
    destruct (isAddress (to tx)); [| done]. cbn in H.
    destruct (gasLimit tx >? maxGasLimit (config s)) eqn:H1; [done |].
    destruct (gasLimit tx <? 21000) eqn:H2; [done |].
    destruct (nonce tx <? 0) eqn:H3; [done |].
    destruct (gasPrice tx <? 0) eqn:H4; [done |].
    split; [done |]. split; [done |]. split; [lia |].
    split; [lia |]. split; [lia |].
    destruct (truthy (value tx)) eqn:Hv.
    + destruct (BigInt (value tx)) as [v |] eqn:Hb; [| done].
      destruct (v <? 0) eqn:H5; [done |].
      split; [right; exists v; split; [done | lia] |].
      destruct (truthy (data tx)) eqn:Hd; cbn in H.
      * destruct (String.prefix "0x" (data tx)); [by right | done].
      * left. by apply truthy_false.
    + split; [left; by apply truthy_false |]. cbn in H.
      destruct (truthy (data tx)) eqn:Hd; cbn in H.
      * destruct (String.prefix "0x" (data tx)); [by right | done].
      * left. by apply truthy_false.
  - intros (-> & -> & Hg & Hn & Hp & Hv & Hd). cbn.
    destruct (gasLimit tx >? maxGasLimit (config s)) eqn:H1; [lia |].
    destruct (gasLimit tx <? 21000) eqn:H2; [lia |].
    destruct (nonce tx <? 0) eqn:H3; [lia |].
    destruct (gasPrice tx <? 0) eqn:H4; [lia |].
    assert (Hdata : truthy (data tx) && negb (String.prefix "0x" (data tx))
                    = false).
    { destruct Hd as [-> | ->]; [done |]. by rewrite andb_false_r. }
    destruct Hv as [-> | (v & Hb & Hv)]; cbn.
    + by rewrite Hdata.
    + destruct (truthy (value tx)); cbn.
      * rewrite Hb. destruct (v <? 0) eqn:H5; [lia |]. by rewrite Hdata.
      * by rewrite Hdata.
Qed.

(** *** Validation on every number *)

Local Abbreviation validateRaw :=
  (RawIntake.validateTransaction isAddress BigInt).

Lemma lt_false_atLeast x lo :
  JS.lt x (JS.ofZ lo) = false ↔ x = JS.NaN ∨ RawIntake.atLeast lo x.
Proof.
  destruct x as [| | | q]; cbn.
  - split; [by left | done].
  - split; [done | by intros [|]].
  - split; [by right | done].
  - rewrite negb_false_iff, Qle_bool_iff. split; [by right |].
    by intros [|].
Qed.

Lemma gt_false_atMost x hi :
  JS.gt x (JS.ofZ hi) = false ↔ x = JS.NaN ∨ RawIntake.atMost hi x.
Proof.
  destruct x as [| | | q]; cbn.
  - split; [by left | done].
  - split; [by right | done].
  - split; [done | by intros [|]].
  - rewrite negb_false_iff, Qle_bool_iff. split; [by right |].
    by intros [|].
Qed.

Lemma validateRaw_state raw s : (validateRaw raw s).2 = s.
Proof.
  unfold RawIntake.validateTransaction, throw.
  repeat (match goal with
          | |- context [if ?b then _ else _] => destruct b
          | |- context [match ?o with Some _ => _ | None => _ end] =>
              destruct o
          end; try done).
Qed.

(** The range tests reject a number only when a comparison holds, and no
    comparison holds of [NaN]. *)
Lemma validateRaw_passes raw s :
  validateRaw raw s = (inr tt, s)
  ↔ RawIntake.passes isAddress BigInt (config s) raw.
Proof.
  unfold RawIntake.passes.
  rewrite <- !lt_false_atLeast.
  assert (Hlimit :
    RawIntake.gasLimit raw = JS.NaN
    ∨ (RawIntake.atLeast 21000 (RawIntake.gasLimit raw)
       ∧ RawIntake.atMost (maxGasLimit (config s)) (RawIntake.gasLimit raw))
    ↔ JS.gt (RawIntake.gasLimit raw) (JS.ofZ (maxGasLimit (config s))) = false
      ∧ JS.lt (RawIntake.gasLimit raw) (JS.ofZ 21000) = false).
  { rewrite lt_false_atLeast, gt_false_atMost.
    destruct (RawIntake.gasLimit raw); cbn; intuition congruence. }
  rewrite Hlimit. clear Hlimit.
  unfold RawIntake.validateTransaction, throw. split.
  - intros H.
    destruct (isAddress (RawIntake.from raw)); [| done].
    destruct (isAddress (RawIntake.to raw)); [| done]. cbn [negb] in H.
    destruct (JS.gt _ _); [done |].
    destruct (JS.lt (RawIntake.gasLimit raw) _); [done |].
    destruct (JS.lt (RawIntake.nonce raw) _); [done |].
    destruct (JS.lt (RawIntake.gasPrice raw) _); [done |].
    do 5 (split; [done |]).
    destruct (truthy (RawIntake.value raw)) eqn:Hv.
    + destruct (BigInt (RawIntake.value raw)) as [v |] eqn:Hb; [| done].
      destruct (v <? 0) eqn:H5; [done |].
      split; [right; exists v; split; [done | lia] |].
      destruct (truthy (RawIntake.data raw)) eqn:Hd; cbn in H.
      * destruct (String.prefix "0x" (RawIntake.data raw)); [by right | done].
      * left. by apply truthy_false.
    + split; [left; by apply truthy_false |]. cbn in H.
      destruct (truthy (RawIntake.data raw)) eqn:Hd; cbn in H.
      * destruct (String.prefix "0x" (RawIntake.data raw)); [by right | done].
      * left. by apply truthy_false.
  - intros (-> & -> & [-> ->] & -> & -> & Hv & Hd). cbn.
    assert (Hdata : truthy (RawIntake.data raw)
                    && negb (String.prefix "0x" (RawIntake.data raw))
                    = false).
    { destruct Hd as [-> | ->]; [done |]. by rewrite andb_false_r. }
    destruct Hv as [-> | (v & Hb & Hv)]; cbn.
    + by rewrite Hdata.
    + destruct (truthy (RawIntake.value raw)); cbn.
      * rewrite Hb. destruct (v <? 0) eqn:H5; [lia |]. by rewrite Hdata.
      * by rewrite Hdata.
Qed.

(** On integer fields the two validations are one. *)
Lemma validateRaw_integers tx s :
  validateRaw (RawIntake.ofTransaction tx) s = validate tx s.
Proof.
  unfold RawIntake.validateTransaction, validateTransaction,
    RawIntake.ofTransaction.
  cbn [RawIntake.from RawIntake.to RawIntake.value RawIntake.data
       RawIntake.nonce RawIntake.gasLimit RawIntake.gasPrice].
  by rewrite JSProps.gt_ofZ, !JSProps.lt_ofZ.
Qed.

(** X1.  [validateTransaction] lets a transaction pass exactly when its
    addresses are valid, its amount and payload are acceptable, and each of
    gas limit, nonce and gas price is within its range or is NaN, which no
    range test rejects; it never changes the processor.  On a transaction
    whose numeric fields are integers this is the validation [addTransaction]
    runs: [addTransaction] returns normally exactly on the transactions that
    pass, and when it throws, the error is the one validation raised and the
    processor is exactly as before. *)
Theorem validateTransaction_passes_in_range_or_NaN raw tx s :
  (RawIntake.validateTransaction isAddress BigInt raw s = (inr tt, s)
   ↔ RawIntake.passes isAddress BigInt (config s) raw)
  ∧ (RawIntake.validateTransaction isAddress BigInt raw s).2 = s
  ∧ RawIntake.validateTransaction isAddress BigInt
      (RawIntake.ofTransaction tx) s
    = validateTransaction isAddress BigInt tx s
  ∧ ((∃ s', addTransaction isAddress BigInt JSON_stringify toUtf8Bytes
              keccak256 tx s = (inr tt, s'))
     ↔ RawIntake.passes isAddress BigInt (config s)
         (RawIntake.ofTransaction tx))
  ∧ (∀ e s', addTransaction isAddress BigInt JSON_stringify toUtf8Bytes
               keccak256 tx s = (inl e, s') →
             s' = s
             ∧ RawIntake.validateTransaction isAddress BigInt
                 (RawIntake.ofTransaction tx) s = (inl e, s)).
Proof.
  split; [apply validateRaw_passes |].
  split; [apply validateRaw_state |].
  split; [apply validateRaw_integers |].
  rewrite <- validateRaw_passes, validateRaw_integers.
  rewrite BatchProcessorProps.addTransaction_cases.
  pose proof (BatchProcessorProps.validateTransaction_state isAddress BigInt
                tx s) as Hs.
  destruct (validate tx s) as [[e | []] sv] eqn:Hvalid; cbn in Hs; subst sv.
  - split; [split; [by intros [s' ?] | done] |].
    by intros e' s' [= <- <-].
  - split; [| intros e s'; by case_bool_decide].
    split; [done |]. intros _. case_bool_decide; by eexists.
Qed.

Lemma addTransaction_new_is_queued tx s :
  wf (config s) tx →
  hashOf tx ∉ transactionHashes s →
  ∃ s', add tx s = (inr tt, s')
        ∧ pendingTransactions s' = pendingTransactions s ++ [tx]
        ∧ getPendingTransactionCount s' = getPendingTransactionCount s + 1
        ∧ transactionHashes s' = {[hashOf tx]} ∪ transactionHashes s
        ∧ config s' = config s
        ∧ batchIndex s' = batchIndex s
        ∧ processing s' = processing s
        ∧ batchStats s' = batchStats s.
Proof.
  intros Hwf Hnew. apply validateTransaction_accepts in Hwf.
  rewrite (BatchProcessorProps.addTransaction_new _ _ _ _ _ _ _ Hwf Hnew).
  eexists. split; [done |]. cbn. repeat split.
  unfold getPendingTransactionCount. cbn. rewrite length_app. cbn. lia.
Qed.

(** X2.  A well-formed transaction whose digest is not yet recorded is
    appended at the end of the queue, the pending count grows by exactly
    one, its digest is recorded, and nothing else changes. *)
Theorem addTransaction_queues_new_transaction tx s :
  wf (config s) tx →
  hashOf tx ∉ transactionHashes s →
  ∃ s', add tx s = (inr tt, s')
        ∧ pendingTransactions s' = pendingTransactions s ++ [tx]
        ∧ getPendingTransactionCount s' = getPendingTransactionCount s + 1
        ∧ transactionHashes s' = {[hashOf tx]} ∪ transactionHashes s
        ∧ config s' = config s
        ∧ batchIndex s' = batchIndex s
        ∧ processing s' = processing s
        ∧ batchStats s' = batchStats s.
Proof. apply addTransaction_new_is_queued. Qed.

(** One iteration of the loop of [addTransactions] does what
    [addTransaction] does, except that the accepted transaction waits in
    [validTxs]. *)
Lemma addTransactions_step_add validTxs s tx :
  let acc := addTransactions_step isAddress BigInt JSON_stringify toUtf8Bytes
               keccak256 (validTxs, s) tx in
  let s1 := (add tx (setPending (pendingTransactions s ++ validTxs) s)).2 in
  setPending (pendingTransactions acc.2 ++ acc.1) acc.2 = s1
  ∧ pendingTransactions acc.2 = pendingTransactions s.
Proof.
  cbn. unfold addTransactions_step.
  rewrite BatchProcessorProps.addTransaction_cases.
  set (s0 := setPending (pendingTransactions s ++ validTxs) s).
  assert (Hv : (validate tx s0).1 = (validate tx s).1)
    by (by apply BatchProcessorProps.validateTransaction_config).
  destruct (validate tx s) as [[e | []] sv];
    destruct (validate tx s0) as [[e0 | []] sv0]; cbn in Hv; try done.
  cbn [transactionHashes setPending s0].
  destruct (decide (hashOf tx ∈ transactionHashes s)) as [Hin | Hnew].
  - rewrite bool_decide_eq_false_2 by (intros H; done).
    by rewrite bool_decide_eq_true_2.
  - rewrite bool_decide_eq_true_2 by done.
    rewrite bool_decide_eq_false_2 by done. subst s0. cbn.
    by rewrite <- app_assoc.
Qed.

Lemma addTransactions_as_repeated_add txs s :
  addTransactions isAddress BigInt JSON_stringify toUtf8Bytes keccak256 txs s
  = foldl (λ s tx, (addTransaction isAddress BigInt JSON_stringify
                      toUtf8Bytes keccak256 tx s).2) s txs.
Proof.
  unfold addTransactions.
  assert (Hgen : ∀ validTxs s0,
    let acc := foldl (addTransactions_step isAddress BigInt JSON_stringify
                        toUtf8Bytes keccak256) (validTxs, s0) txs in
    setPending (pendingTransactions acc.2 ++ acc.1) acc.2
    = foldl (λ s tx, (add tx s).2)
        (setPending (pendingTransactions s0 ++ validTxs) s0) txs).
  { induction txs as [| tx rest IH]; intros validTxs s0; [done |].
    cbn [foldl].
    destruct (addTransactions_step_add validTxs s0 tx) as [Hstep Hq].
    destruct (addTransactions_step _ _ _ _ _ (validTxs, s0) tx)
      as [validTxs1 s1] eqn:Hacc.
    cbn in Hstep, Hq. rewrite <- Hstep. apply IH. }
  specialize (Hgen [] s). cbn in Hgen.
  destruct (foldl _ ([], s) txs) as [validTxs s'] eqn:Hfold.
  cbn in Hgen. rewrite Hgen. f_equal.
  destruct s. unfold setPending. cbn. by rewrite app_nil_r.
Qed.

(** X3.  [addTransactions] leaves the processor in the state reached by
    calling [addTransaction] on each element in turn and ignoring the calls
    that throw: invalid elements are skipped, duplicates (of queued
    transactions or of earlier elements) are dropped, the rest are queued in
    order. *)
Theorem addTransactions_is_repeated_addTransaction txs s :
  addTransactions isAddress BigInt JSON_stringify toUtf8Bytes keccak256 txs s
  = foldl (λ s tx, (addTransaction isAddress BigInt JSON_stringify
                      toUtf8Bytes keccak256 tx s).2) s txs.
Proof. apply addTransactions_as_repeated_add. Qed.

(** X4.  A list of well-formed transactions with pairwise different
    digests, none of them recorded yet, is queued whole and in order by
    [addTransactions]: the pending count grows by the length of the list. *)
Theorem addTransactions_queues_distinct_transactions txs s :
  Forall (wf (config s)) txs →
  NoDup (hashOf <$> txs) →
  (∀ tx, tx ∈ txs → hashOf tx ∉ transactionHashes s) →
  pendingTransactions (addMany txs s) = pendingTransactions s ++ txs
  ∧ getPendingTransactionCount (addMany txs s)
    = getPendingTransactionCount s + Z.of_nat (length txs).
Proof.
  intros Hwf Hnodup Hfresh.
  assert (Hq : pendingTransactions (addMany txs s)
               = pendingTransactions s ++ txs).
  { rewrite addTransactions_as_repeated_add.
    revert s Hwf Hnodup Hfresh.
    induction txs as [| tx rest IH]; intros s Hwf Hnodup Hfresh; cbn.
    { by rewrite app_nil_r. }
    apply Forall_cons in Hwf as [Hwf1 Hwf].
    apply NoDup_cons in Hnodup as [Hnotin Hnodup].
    destruct (addTransaction_new_is_queued tx s Hwf1)
      as (s1 & Hadd & Hq1 & _ & Hh1 & Hcfg1 & _).
    { apply Hfresh. by left. }
    rewrite Hadd. cbn. rewrite IH, Hq1; [by rewrite <- app_assoc | | done |].
    - by rewrite Hcfg1.
    - intros tx' Hin. rewrite Hh1. intros Hbad.
      apply elem_of_union in Hbad as [Hbad | Hbad].
      + apply elem_of_singleton in Hbad. apply Hnotin.
        rewrite <- Hbad. by apply list_elem_of_fmap_2.
      + eapply Hfresh; [by right | done]. }
  split; [exact Hq |].
  unfold getPendingTransactionCount. rewrite Hq, length_app. lia.
Qed.

Lemma createBatch_start_shape s r s' :
  createBatch_start s = (r, s') →
  transactionHashes s' = transactionHashes s
  ∧ config s' = config s
  ∧ batchIndex s' = batchIndex s
  ∧ processing s' = processing s
  ∧ batchStats s' = batchStats s
  ∧ ∃ k, pendingTransactions s' = drop k (pendingTransactions s).
Proof.
  destruct (decide (pendingTransactions s = [])) as [Hempty | Hne].
  - rewrite BatchProcessorProps.createBatch_start_empty by done.
    intros [= _ <-]. repeat split. by exists 0%nat.
  - rewrite BatchProcessorProps.createBatch_start_nonempty by done.
    intros [= _ <-]. repeat split. by eexists.
Qed.

Lemma launchBatches_shape n s frames s' :
  launchBatches n s = (frames, s') →
  transactionHashes s' = transactionHashes s
  ∧ config s' = config s
  ∧ processing s' = processing s
  ∧ batchStats s' = batchStats s
  ∧ (∃ k, pendingTransactions s' = drop k (pendingTransactions s))
  ∧ concat (proverTransactions <$> frames) ++ pendingTransactions s'
    ≡ₚ pendingTransactions s
  ∧ Forall (λ frame, proverTransactions frame ≠ []) frames.
Proof.
  revert s frames s'.
  induction n as [| n IH]; intros s frames s'; cbn.
  { intros [= <- <-]. repeat split; [by exists 0%nat | done | done]. }
  case_bool_decide as Hlen;
    [| intros [= <- <-]; repeat split; [by exists 0%nat | done | done]].
  assert (Hne : pendingTransactions s ≠ [])
    by (destruct (pendingTransactions s); [cbn in Hlen; lia | done]).
  destruct (BatchProcessorProps.createBatch_start_drains s Hne)
    as (frame & s1 & drained & Hstart & Hdrained & Hsplit & _ & Hperm).
  rewrite Hstart.
  destruct (createBatch_start_shape _ _ _ Hstart)
    as (Hh & Hc & _ & Hp & Hb & k1 & Hk1).
  destruct (launchBatches n s1) as [rest s2] eqn:Hrec.
  apply IH in Hrec as (Hh2 & Hc2 & Hp2 & Hb2 & (k2 & Hk2) & Hperm2 & Hall).
  intros [= <- <-].
  split; [congruence |]. split; [congruence |]. split; [congruence |].
  split; [congruence |]. split.
  { exists (k1 + k2)%nat. by rewrite Hk2, Hk1, drop_drop. }
  split.
  - cbn [fmap list_fmap concat]. rewrite <- app_assoc, Hperm2, Hperm.
    by rewrite Hsplit.
  - constructor; [| done]. intros Hnil. apply Hdrained.
    apply Permutation_nil_r. by rewrite <- Hperm, Hnil.
Qed.

Lemma queuedDigests_drop k s s' :
  pendingTransactions s' = drop k (pendingTransactions s) →
  digests s' = drop k (digests s).
Proof. unfold queuedDigests. intros ->. by rewrite fmap_drop. Qed.

Lemma queueInvariant_shrink k s s' :
  pendingTransactions s' = drop k (pendingTransactions s) →
  transactionHashes s' = transactionHashes s →
  queueInvariant JSON_stringify toUtf8Bytes keccak256 s →
  queueInvariant JSON_stringify toUtf8Bytes keccak256 s'.
Proof.
  intros Hq Hh [Hnodup Hcover]. unfold queueInvariant.
  rewrite (queuedDigests_drop k s s' Hq), Hh. split.
  - eapply sublist_NoDup; [exact Hnodup | apply sublist_drop].
  - intros h Hin. apply Hcover.
    eapply elem_of_sublist; [exact Hin | apply sublist_drop].
Qed.

Lemma queueInvariant_add tx s :
  queueInvariant JSON_stringify toUtf8Bytes keccak256 s →
  queueInvariant JSON_stringify toUtf8Bytes keccak256 (add tx s).2.
Proof.
  intros [Hnodup Hcover]. rewrite BatchProcessorProps.addTransaction_cases.
  destruct (validate tx s) as [[e | []] sv]; [done |].
  case_bool_decide as Hdup; [done |]. unfold queueInvariant, queuedDigests.
  cbn. rewrite fmap_app. cbn. split.
  - apply NoDup_app. split; [done |]. split; [| apply NoDup_singleton].
    intros h Hin Hh. apply list_elem_of_singleton in Hh as ->.
    apply Hdup, Hcover, Hin.
  - intros h Hin. apply elem_of_app in Hin as [Hin | Hin].
    + apply elem_of_union_r, Hcover, Hin.
    + apply list_elem_of_singleton in Hin as ->.
      apply elem_of_union_l. by apply elem_of_singleton.
Qed.

(** X5.  Whatever sequence of calls is made on a processor
    ([addTransaction], [addTransactions], [createBatch] and its
    continuation, [processPendingTransactions] entering and leaving,
    [updateConfig], [clearPendingTransactions]), the queue never holds two
    transactions with the same digest, and the digest of every queued
    transaction is in the digest set. *)
Theorem queue_never_holds_duplicates cfg ops :
  let s := run isAddress BigInt JSON_stringify toUtf8Bytes keccak256 ops
             (BatchProcessor.new cfg) in
  NoDup (digests s) ∧ ∀ h, h ∈ digests s → h ∈ transactionHashes s.
Proof.
  cbn. unfold run.
  assert (Hinit : queueInvariant JSON_stringify toUtf8Bytes keccak256
                    (BatchProcessor.new cfg)).
  { split; [apply NoDup_nil_2 | by intros h Hin; inversion Hin]. }
  revert Hinit. generalize (BatchProcessor.new cfg).
  induction ops as [| op rest IH]; intros s Hinv; [exact Hinv |].
  cbn [foldl]. apply IH. destruct op as [tx | txs | | frame now outcome | | | f |];
    cbn [step].
  - by apply queueInvariant_add.
  - rewrite addTransactions_as_repeated_add.
    revert s Hinv. induction txs as [| tx txs IHt]; intros s Hinv; [done |].
    cbn. apply IHt. by apply queueInvariant_add.
  - destruct (createBatch_start s) as [r s'] eqn:Hstart.
    destruct (createBatch_start_shape _ _ _ Hstart)
      as (Hh & _ & _ & _ & _ & k & Hk).
    by eapply queueInvariant_shrink.
  - unfold createBatch_resume, throw. by destruct outcome.
  - unfold processPendingTransactions_enter.
    destruct (processing s); [done |].
    case_bool_decide; [| done].
    destruct (launchBatches _ _) as [frames s'] eqn:Hlaunch.
    destruct (launchBatches_shape _ _ _ _ Hlaunch)
      as (Hh & _ & _ & _ & (k & Hk) & _).
    by eapply (queueInvariant_shrink k (setProcessing true s)).
  - done.
  - done.
  - split; [apply NoDup_nil_2 | by intros h Hin; inversion Hin].
Qed.

End Intake.

(** No gas limit, nonce or gas price at all is as good as a valid one: the
    transfer passes under the limits of the running example, while the same
    transfer with a gas limit of 20999 is refused. *)
Lemma validateTransaction_lets_NaN_through :
  RawIntake.validateTransaction isLowerHexAddress parseDecimal
    MoreFixtures.txNaN emptyPool = (inr tt, emptyPool)
  ∧ (RawIntake.validateTransaction isLowerHexAddress parseDecimal
       {| RawIntake.from := alice; RawIntake.to := bob;
          RawIntake.value := "1"; RawIntake.data := "0x";
          RawIntake.nonce := JS.NaN; RawIntake.gasLimit := JS.ofZ 20999;
          RawIntake.gasPrice := JS.NaN |} emptyPool).1
    = inl (Error "Gas limit below minimum required").
Proof. split; by vm_compute. Qed.

Ltac stand_in_well_formed :=
  unfold wellFormed; cbn;
  repeat (apply conj); try reflexivity; try lia;
  try (right; eexists; split; [vm_compute; reflexivity | lia]);
  try (by right).

Lemma addTransaction_queues_new_transaction_witness :
  wellFormed isLowerHexAddress parseDecimal (config emptyPool) tx1
  ∧ (digestOf tx1 ∉ transactionHashes emptyPool)
  ∧ (∃ s', intake tx1 emptyPool = (inr tt, s')
           ∧ pendingTransactions s' = pendingTransactions emptyPool ++ [tx1]
           ∧ getPendingTransactionCount s'
             = getPendingTransactionCount emptyPool + 1).
Proof.
  assert (Hwf : wellFormed isLowerHexAddress parseDecimal (config emptyPool)
                  tx1) by stand_in_well_formed.
  assert (Hnew : digestOf tx1 ∉ transactionHashes emptyPool)
    by (apply (bool_decide_unpack _); vm_compute; exact I).
  split; [exact Hwf |]. split; [exact Hnew |].
  destruct (addTransaction_queues_new_transaction isLowerHexAddress
              parseDecimal encodeTx utf8 digest tx1 emptyPool Hwf Hnew)
    as (s' & Hadd & Hq & Hcount & _).
  exists s'. split; [exact Hadd |]. split; [exact Hq | exact Hcount].
Defined.

Lemma addTransactions_queues_distinct_transactions_witness :
  let txs := [tx1; tx2; tx3] in
  let s' := addTransactions isLowerHexAddress parseDecimal encodeTx utf8
              digest txs emptyPool in
  Forall (wellFormed isLowerHexAddress parseDecimal (config emptyPool)) txs
  ∧ NoDup (digestOf <$> txs)
  ∧ (∀ tx, tx ∈ txs → digestOf tx ∉ transactionHashes emptyPool)
  ∧ pendingTransactions s' = pendingTransactions emptyPool ++ txs
  ∧ getPendingTransactionCount s'
    = getPendingTransactionCount emptyPool + Z.of_nat (length txs).
Proof.
  intros txs s'.
  assert (Hwf : Forall (wellFormed isLowerHexAddress parseDecimal
                          (config emptyPool)) txs)
    by (repeat (apply Forall_cons; split; [stand_in_well_formed |]);
        apply Forall_nil_2).
  assert (Hnodup : NoDup (digestOf <$> txs))
    by (apply (bool_decide_unpack _); vm_compute; exact I).
  assert (Hfresh : ∀ tx, tx ∈ txs → digestOf tx ∉ transactionHashes emptyPool)
    by (intros tx _; cbn; apply not_elem_of_empty).
  split; [exact Hwf |]. split; [exact Hnodup |]. split; [exact Hfresh |].
  exact (addTransactions_queues_distinct_transactions isLowerHexAddress
           parseDecimal encodeTx utf8 digest txs emptyPool Hwf Hnodup Hfresh).
Defined.

(** *** Batch formation *)

Lemma gasMultiplier_is_one b :
  Qfloor (inject_Z b *
          Qmax (1 # 2) (Qmin (3 # 2) (1 / (estimateCurrentGasPrice / 10))))%Q
  = b.
Proof.
  assert (H : Qmax (1 # 2)
                (Qmin (3 # 2) (1 / (estimateCurrentGasPrice / 10)))%Q
              = (10 # 10)%Q) by (vm_compute; reflexivity).
  rewrite H. unfold Qfloor, Qmult, inject_Z. cbn [Qnum Qden].
  rewrite Pos.mul_1_l. apply Z.div_mul. lia.
Qed.

(** X6.  With the fixed gas price estimate the congestion multiplier is 1:
    the batch size is the smaller of the configured maximum and the number of
    pending transactions, and never less than one (also when the configured
    maximum is zero or negative). *)
Theorem calculateOptimalBatchSize_closed_form s :
  calculateOptimalBatchSize s
  = Z.max 1 (Z.min (maxTransactions (config s))
                   (getPendingTransactionCount s)).
Proof.
  unfold calculateOptimalBatchSize, getPendingTransactionCount.
  rewrite gasMultiplier_is_one. lia.
Qed.

Lemma calculateGasUsage_total transactions :
  calculateGasUsage transactions = totalGasLimit transactions.
Proof.
  unfold calculateGasUsage, totalGasLimit.
  assert (H : ∀ acc, foldl (λ total tx, total + gasLimit tx) acc transactions
                     = acc + foldr (λ tx total, gasLimit tx + total) 0
                               transactions).
  { induction transactions as [| tx rest IH]; intros acc; cbn; [lia |].
    rewrite IH. lia. }
  rewrite H. lia.
Qed.

Lemma totalGasLimit_perm l1 l2 :
  l1 ≡ₚ l2 → totalGasLimit l1 = totalGasLimit l2.
Proof.
  unfold totalGasLimit.
  induction 1 as [| x l l' _ IH | |]; cbn; [done | by rewrite IH | lia | congruence].
Qed.

(** X7.  On a non-empty queue [createBatch] removes exactly the first
    [calculateOptimalBatchSize] transactions (all of them if fewer are
    pending), leaves the rest queued in their order, and reports to its
    continuation the number of transactions drained and the sum of their gas
    limits; the prover is called with the current counter. *)
Theorem createBatch_drains_prefix s :
  pendingTransactions s ≠ [] →
  let k := Z.to_nat (calculateOptimalBatchSize s) in
  ∃ frame s',
    createBatch_start s = (inr frame, s')
    ∧ proverTransactions frame ≡ₚ take k (pendingTransactions s)
    ∧ pendingTransactions s' = drop k (pendingTransactions s)
    ∧ getPendingTransactionCount s'
      = Z.max 0 (getPendingTransactionCount s
                 - calculateOptimalBatchSize s)
    ∧ frameTransactionCount frame
      = Z.min (getPendingTransactionCount s) (calculateOptimalBatchSize s)
    ∧ frameGasUsage frame = totalGasLimit (take k (pendingTransactions s))
    ∧ proverBatchIndex frame = batchIndex s.
Proof.
  intros Hne k. rewrite BatchProcessorProps.createBatch_start_nonempty by done.
  fold k. do 2 eexists. split; [done |]. cbn.
  pose proof (BatchProcessorProps.calculateOptimalBatchSize_pos s).
  unfold getPendingTransactionCount.
  split; [apply JSProps.sort_perm |]. split; [done |].
  split; [unfold setPending; cbn; rewrite length_drop; lia |].
  split; [rewrite length_take; lia |]. split; [| done].
  rewrite calculateGasUsage_total.
  apply totalGasLimit_perm, JSProps.sort_perm.
Qed.

(** X8.  When the prover rejects the request of [createBatch], the error is
    passed on, the drained transactions stay removed from the queue (they are
    not put back), and the counter, the statistics and the digest set are as
    before the call. *)
Theorem createBatch_prover_failure_loses_batch now prover s frame s1 e :
  createBatch_start s = (inr frame, s1) →
  prover (proverTransactions frame) (proverBatchIndex frame) = inl e →
  ∃ s', createBatch now prover s = (inl e, s')
        ∧ pendingTransactions s' = pendingTransactions s1
        ∧ (length (pendingTransactions s')
           < length (pendingTransactions s))%nat
        ∧ batchIndex s' = batchIndex s
        ∧ batchStats s' = batchStats s
        ∧ transactionHashes s' = transactionHashes s.
Proof.
  intros Hstart Hfail. unfold createBatch, mbind, SE_bind.
  rewrite Hstart, Hfail. cbn. eexists. split; [done |].
  destruct (decide (pendingTransactions s = [])) as [Hempty | Hne].
  { by rewrite BatchProcessorProps.createBatch_start_empty in Hstart. }
  rewrite BatchProcessorProps.createBatch_start_nonempty in Hstart by done.
  injection Hstart as _ <-. cbn. repeat split.
  pose proof (BatchProcessorProps.calculateOptimalBatchSize_pos s).
  rewrite length_drop.
  destruct (pendingTransactions s); [done | cbn; lia].
Qed.

(** X9.  When the prover resolves, [createBatch] returns the prover's proof,
    advances the counter by one and files the statistics of the batch (number
    of transactions drained, sum of their gas limits, time) under the index
    the counter had; the statistics of other indices are untouched. *)
Theorem createBatch_success_records_statistics now prover s frame s1 proof :
  createBatch_start s = (inr frame, s1) →
  prover (proverTransactions frame) (proverBatchIndex frame) = inr proof →
  ∃ s', createBatch now prover s = (inr proof, s')
        ∧ batchIndex s' = batchIndex s + 1
        ∧ batchStats s' !! batchIndex s
          = Some {| statTransactionCount :=
                      Z.of_nat (length (proverTransactions frame));
                    gasUsed := totalGasLimit (proverTransactions frame);
                    statTimestamp := now |}
        ∧ (∀ j, j ≠ batchIndex s → batchStats s' !! j = batchStats s !! j)
        ∧ pendingTransactions s' = pendingTransactions s1.
Proof.
  intros Hstart Hok. unfold createBatch, mbind, SE_bind.
  rewrite Hstart, Hok. cbn. eexists. split; [done |].
  destruct (decide (pendingTransactions s = [])) as [Hempty | Hne].
  { by rewrite BatchProcessorProps.createBatch_start_empty in Hstart. }
  rewrite BatchProcessorProps.createBatch_start_nonempty in Hstart by done.
  injection Hstart as <- <-. cbn.
  split; [done |]. split.
  - rewrite lookup_insert_eq. do 2 f_equal.
    + unfold optimizeBatch. by rewrite JSProps.sort_length.
    + apply calculateGasUsage_total.
  - split; [| done]. intros j Hj. by rewrite lookup_insert_ne.
Qed.

(** X10.  The batches that [processPendingTransactions] launches together
    share no transaction and lose none: the transactions handed to the
    prover, taken over all launched batches, together with the transactions
    still queued, are exactly the transactions that were queued before; every
    launched batch is non-empty and the [processing] flag is set. *)
Theorem launched_batches_partition_the_queue s frames s' :
  processPendingTransactions_enter s = (Launched frames, s') →
  concat (proverTransactions <$> frames) ++ pendingTransactions s'
    ≡ₚ pendingTransactions s
  ∧ (∃ k, pendingTransactions s' = drop k (pendingTransactions s))
  ∧ Forall (λ frame, proverTransactions frame ≠ []) frames
  ∧ processing s = false
  ∧ processing s' = true
  ∧ transactionHashes s' = transactionHashes s.
Proof.
  unfold processPendingTransactions_enter.
  destruct (processing s) eqn:Hflag; [done |].
  case_bool_decide; [| done].
  destruct (launchBatches _ _) as [frames0 s0] eqn:Hlaunch.
  intros [= <- <-].
  destruct (launchBatches_shape _ _ _ _ Hlaunch)
    as (Hh & _ & Hp & _ & Hk & Hperm & Hall).
  done.
Qed.

Lemma createBatch_drains_prefix_witness :
  let s := updateConfig (λ c, {| maxTransactions := 3;
                                 maxGasLimit := maxGasLimit c;
                                 aggregationSize := aggregationSize c;
                                 batchInterval := batchInterval c |})
             (poolOf [tx1; tx2; tx3; tx4]) in
  pendingTransactions s ≠ []
  ∧ ∃ frame s',
      createBatch_start s = (inr frame, s')
      ∧ proverTransactions frame ≡ₚ [tx1; tx2; tx3]
      ∧ pendingTransactions s' = [tx4]
      ∧ getPendingTransactionCount s' = 1
      ∧ frameTransactionCount frame = 3
      ∧ frameGasUsage frame = 63000
      ∧ proverBatchIndex frame = 5.
Proof.
  intros s.
  assert (Hne : pendingTransactions s ≠ []) by (by vm_compute).
  split; [exact Hne |].
  destruct (createBatch_drains_prefix s Hne)
    as (frame & s' & H1 & H2 & H3 & H4 & H5 & H6 & H7).
  exists frame, s'. split; [exact H1 |]. split; [exact H2 |].
  split; [exact H3 |]. split; [exact H4 |]. split; [exact H5 |].
  split; [exact H6 | exact H7].
Defined.

Lemma createBatch_prover_failure_loses_batch_witness :
  let s := poolOf [tx1] in
  let frame := {| proverTransactions := [tx1]; proverBatchIndex := 5;
                  frameTransactionCount := 1; frameGasUsage := 21000 |} in
  let prover := λ (_ : list Transaction) (_ : Z),
                  inl (ProverError "unavailable") : Exn + ProofResult in
  createBatch_start s = (inr frame, (createBatch_start s).2)
  ∧ ∃ s', createBatch 0 prover s = (inl (ProverError "unavailable"), s')
          ∧ pendingTransactions s' = []
          ∧ (length (pendingTransactions s')
             < length (pendingTransactions s))%nat
          ∧ batchIndex s' = batchIndex s
          ∧ batchStats s' = batchStats s
          ∧ transactionHashes s' = transactionHashes s.
Proof.
  intros s frame prover.
  assert (Hstart : createBatch_start s = (inr frame, (createBatch_start s).2))
    by reflexivity.
  split; [exact Hstart |].
  exact (createBatch_prover_failure_loses_batch 0 prover s frame _
           (ProverError "unavailable") Hstart eq_refl).
Defined.

Lemma createBatch_success_records_statistics_witness :
  let s := poolOf [tx1] in
  let frame := {| proverTransactions := [tx1]; proverBatchIndex := 5;
                  frameTransactionCount := 1; frameGasUsage := 21000 |} in
  let proof := generateProofForBatch "proof_" 0 0 [tx1] 5 in
  createBatch_start s = (inr frame, (createBatch_start s).2)
  ∧ mockProver [tx1] 5 = inr proof
  ∧ ∃ s', createBatch 42 mockProver s = (inr proof, s')
          ∧ batchIndex s' = 6
          ∧ batchStats s' !! 5
            = Some {| statTransactionCount := 1; gasUsed := 21000;
                      statTimestamp := 42 |}
          ∧ (∀ j, j ≠ 5 → batchStats s' !! j = batchStats s !! j)
          ∧ pendingTransactions s' = [].
Proof.
  intros s frame proof.
  assert (Hstart : createBatch_start s = (inr frame, (createBatch_start s).2))
    by reflexivity.
  split; [exact Hstart |]. split; [reflexivity |].
  exact (createBatch_success_records_statistics 42 mockProver s frame _ proof
           Hstart eq_refl).
Defined.

Lemma launched_batches_partition_the_queue_witness :
  let s := poolOf [tx1; tx2; tx3; tx4] in
  let run := processPendingTransactions_enter s in
  let frames := launchedFrames run.1 in
  run = (Launched frames, run.2)
  ∧ length frames = 3%nat
  ∧ concat (proverTransactions <$> frames) ++ pendingTransactions run.2
      ≡ₚ pendingTransactions s
  ∧ (∃ k, pendingTransactions run.2 = drop k (pendingTransactions s))
  ∧ Forall (λ frame, proverTransactions frame ≠ []) frames
  ∧ processing s = false
  ∧ processing run.2 = true
  ∧ transactionHashes run.2 = transactionHashes s.
Proof.
  intros s run frames.
  assert (Hrun : run = (Launched frames, run.2))
    by (vm_compute; reflexivity).
  split; [exact Hrun |]. split; [vm_compute; reflexivity |].
  exact (launched_batches_partition_the_queue s frames run.2 Hrun).
Defined.

End BatchProcessorMore.

(** ** StateRootManager: further properties *)

Module StateManagerMore.

Import StateManager StateStore Fixtures MoreFixtures.

(** X11.  A single submission that throws has changed nothing in the
    manager, and the error is either the manager's own "Invalid state
    transition" or the rejection the ledger answered to the root read or to
    the submission. *)
Theorem submitStateUpdate_failure_keeps_manager
    ledger now proof vKeyHash w e w' :
  submitStateUpdate ledger now proof vKeyHash w = (inl e, w') →
  mgr w' = mgr w
  ∧ (e = InvalidTransition
     ∨ currentStateRoot ledger = inl e
     ∨ submitBatch ledger (proofData proof) (publicValues proof) vKeyHash
       = inl e).
Proof.
  rewrite StateManagerProps.submitStateUpdate_cases.
  destruct (currentStateRoot ledger) as [e0 | root].
  { intros [= <- <-]. split; [done |]. right. by left. }
  case_bool_decide.
  - destruct (submitBatch ledger _ _ _) as [e1 | ?] eqn:Hsubmit; [| done].
    intros [= <- <-]. split; [done |]. right. by right.
  - intros [= <- <-]. split; [done |]. by left.
Qed.

Lemma submitStateUpdate_failure_keeps_manager_witness :
  let run := submitStateUpdate strictChain 0 (mockProof 3) [] freshWorld in
  run = (inl (SettlementError "InvalidProof"), run.2)
  ∧ mgr run.2 = mgr freshWorld
  ∧ (SettlementError "InvalidProof" = InvalidTransition
     ∨ currentStateRoot strictChain = inl (SettlementError "InvalidProof")
     ∨ submitBatch strictChain (proofData (mockProof 3))
         (publicValues (mockProof 3)) []
       = inl (SettlementError "InvalidProof")).
Proof.
  intros run.
  assert (Hrun : run = (inl (SettlementError "InvalidProof"), run.2))
    by (vm_compute; reflexivity).
  split; [exact Hrun |].
  exact (submitStateUpdate_failure_keeps_manager strictChain 0 (mockProof 3)
           [] freshWorld _ _ Hrun).
Defined.

(** X12.  A single submission that returns [true] was accepted by the
    ledger, whose current root is the proof's declared old root; it files the
    batch under the proof's batch index as finalized, with the proof's new
    root, its transaction digests and the time of the call, and leaves every
    other index of both histories and all balances as they were. *)
Theorem submitStateUpdate_success_touches_one_index
    ledger now proof vKeyHash w w' :
  submitStateUpdate ledger now proof vKeyHash w = (inr true, w') →
  currentStateRoot ledger = inr (oldStateRoot (publicValues proof))
  ∧ submitBatch ledger (proofData proof) (publicValues proof) vKeyHash
    = inr tt
  ∧ batchHistory (mgr w') !! Types.batchIndex proof
    = Some {| bBatchIndex := Types.batchIndex proof;
              stateRoot := newStateRoot (publicValues proof);
              transactionHashes := pvTransactionHashes (publicValues proof);
              timestamp := now;
              finalized := true |}
  ∧ (∀ j, j ≠ Types.batchIndex proof →
          stateHistory (mgr w') !! j = stateHistory (mgr w) !! j
          ∧ batchHistory (mgr w') !! j = batchHistory (mgr w) !! j)
  ∧ stateStorage (mgr w') = stateStorage (mgr w).
Proof.
  rewrite StateManagerProps.submitStateUpdate_cases.
  destruct (currentStateRoot ledger) as [e0 | root]; [done |].
  case_bool_decide as Hroot; [| done].
  destruct (submitBatch ledger _ _ _) as [e1 | []]; [done |].
  intros [= <-]. cbn. split; [by rewrite Hroot |]. split; [done |].
  split; [apply lookup_insert_eq |]. split; [| done].
  intros j Hj. by rewrite !lookup_insert_ne.
Qed.

Lemma submitStateUpdate_success_touches_one_index_witness :
  let run := submitStateUpdate (acceptingLedger root0) 9 (mockProof 3) []
               freshWorld in
  run = (inr true, run.2)
  ∧ batchHistory (mgr run.2) !! 3
    = Some {| bBatchIndex := 3; stateRoot := root1; transactionHashes := [];
              timestamp := 9; finalized := true |}
  ∧ (∀ j, j ≠ 3 →
          stateHistory (mgr run.2) !! j = stateHistory (mgr freshWorld) !! j
          ∧ batchHistory (mgr run.2) !! j
            = batchHistory (mgr freshWorld) !! j).
Proof.
  intros run.
  assert (Hrun : run = (inr true, run.2)) by (vm_compute; reflexivity).
  split; [exact Hrun |].
  destruct (submitStateUpdate_success_touches_one_index
              (acceptingLedger root0) 9 (mockProof 3) [] freshWorld _ Hrun)
    as (_ & _ & Hentry & Hother & _).
  split; [exact Hentry | exact Hother].
Defined.

Lemma recordProofs_lookup now proofs s :
  let s' := foldl (λ acc proof, recordProof now proof acc) s proofs in
  (∀ j, j ∉ Types.batchIndex <$> proofs →
        stateHistory s' !! j = stateHistory s !! j
        ∧ batchHistory s' !! j = batchHistory s !! j)
  ∧ (NoDup (Types.batchIndex <$> proofs) →
     ∀ proof, proof ∈ proofs →
       stateHistory s' !! Types.batchIndex proof
         = Some (newStateRoot (publicValues proof))
       ∧ (finalized <$> batchHistory s' !! Types.batchIndex proof)
         = Some true)
  ∧ stateStorage s' = stateStorage s.
Proof.
  revert s. induction proofs as [| p rest IH]; intros s; cbn.
  { split; [done |]. split; [| done]. intros _ proof Hin. inversion Hin. }
  destruct (IH (recordProof now p s)) as (Hother & Hown & Hstore).
  split; [| split; [| by rewrite Hstore]].
  - intros j Hj. apply not_elem_of_cons in Hj as [Hne Hj].
    destruct (Hother j Hj) as [-> ->]. cbn. by rewrite !lookup_insert_ne.
  - intros Hnodup proof Hin. apply NoDup_cons in Hnodup as [Hfresh Hnodup].
    apply elem_of_cons in Hin as [-> | Hin]; [| by apply Hown].
    destruct (Hother _ Hfresh) as [-> ->]. cbn.
    by rewrite !lookup_insert_eq.
Qed.

(** X13.  An aggregate submission that returns [true] was accepted by the
    ledger as one call carrying the first proof's bytes and all transitions;
    when the proofs carry pairwise different batch indices, the state history
    then holds each proof's new root at its index and the batch is marked
    finalized; indices that no proof carries are untouched. *)
Theorem submitAggregated_success_records_every_proof
    ledger now proofs vKeyHash w w' :
  submitAggregatedStateUpdates ledger now proofs vKeyHash w
    = (inr true, w') →
  (∃ first rest,
     proofs = first :: rest
     ∧ calls w' = calls w ++
         [CallCurrentStateRoot;
          CallSubmitAggregatedBatch (proofData first)
            (publicValues <$> proofs) vKeyHash])
  ∧ (∀ j, j ∉ Types.batchIndex <$> proofs →
          stateHistory (mgr w') !! j = stateHistory (mgr w) !! j
          ∧ batchHistory (mgr w') !! j = batchHistory (mgr w) !! j)
  ∧ (NoDup (Types.batchIndex <$> proofs) →
     ∀ proof, proof ∈ proofs →
       stateHistory (mgr w') !! Types.batchIndex proof
         = Some (newStateRoot (publicValues proof))
       ∧ (finalized <$> batchHistory (mgr w') !! Types.batchIndex proof)
         = Some true).
Proof.
  destruct proofs as [| first rest].
  { unfold submitAggregatedStateUpdates, getCurrentStateRoot, await_ledger,
      mbind, SE_bind, try_rethrow, throw.
    by destruct (currentStateRoot ledger). }
  rewrite StateManagerProps.submitAggregatedStateUpdates_cases.
  destruct (currentStateRoot ledger) as [e0 | root]; [done |].
  destruct (submitAggregatedBatch ledger _ _ _) as [e1 | []]; [done |].
  intros [= <-]. cbn [mgr calls].
  split; [by exists first, rest |].
  destruct (recordProofs_lookup now (first :: rest) (mgr w))
    as (Hother & Hown & _).
  split; [exact Hother | exact Hown].
Qed.

Lemma submitAggregated_success_records_every_proof_witness :
  let chain := [mockProof 0; mockProof 1; mockProof 2] in
  let run := submitAggregatedStateUpdates (acceptingLedger root0) 0 chain []
               freshWorld in
  run = (inr true, run.2)
  ∧ NoDup (Types.batchIndex <$> chain)
  ∧ (∀ proof, proof ∈ chain →
       stateHistory (mgr run.2) !! Types.batchIndex proof
         = Some (newStateRoot (publicValues proof))
       ∧ (finalized <$> batchHistory (mgr run.2) !! Types.batchIndex proof)
         = Some true).
Proof.
  intros chain run.
  assert (Hrun : run = (inr true, run.2)) by (vm_compute; reflexivity).
  assert (Hnodup : NoDup (Types.batchIndex <$> chain))
    by (apply (bool_decide_unpack _); vm_compute; exact I).
  split; [exact Hrun |]. split; [exact Hnodup |].
  destruct (submitAggregated_success_records_every_proof
              (acceptingLedger root0) 0 chain [] freshWorld _ Hrun)
    as (_ & _ & Hown).
  exact (Hown Hnodup).
Defined.

(** X14.  An aggregate submission of an empty list never reaches the
    ledger's submission entry point: after the read of the current root it
    throws (the first proof does not exist), and the manager is unchanged. *)
Theorem submitAggregated_empty_list_throws ledger now vKeyHash w :
  ∃ e w', submitAggregatedStateUpdates ledger now [] vKeyHash w = (inl e, w')
          ∧ mgr w' = mgr w
          ∧ calls w' = calls w ++ [CallCurrentStateRoot].
Proof.
  unfold submitAggregatedStateUpdates, getCurrentStateRoot, await_ledger,
    mbind, SE_bind, try_rethrow, throw, logged.
  destruct (currentStateRoot ledger); cbn; by do 2 eexists.
Qed.

Lemma loadBatches_lookup reads indices s :
  let s' := foldl (loadBatch reads) s indices in
  (∀ i b, i ∈ indices → getBatch reads i = inr b →
          stateHistory s' !! i = Some (cbStateRoot b)
          ∧ batchHistory s' !! i = Some (entryOf i b))
  ∧ (∀ i, i ∉ indices ∨ (∃ e, getBatch reads i = inl e) →
          stateHistory s' !! i = stateHistory s !! i
          ∧ batchHistory s' !! i = batchHistory s !! i)
  ∧ stateStorage s' = stateStorage s.
Proof.
  revert s. induction indices as [| j rest IH]; intros s; cbn.
  { split; [intros i b Hin; inversion Hin |]. done. }
  destruct (IH (loadBatch reads s j)) as (Hload & Hkeep & Hstore).
  assert (Hj : ∀ i, i ≠ j ∨ (∃ e, getBatch reads i = inl e) →
               stateHistory (loadBatch reads s j) !! i = stateHistory s !! i
               ∧ batchHistory (loadBatch reads s j) !! i
                 = batchHistory s !! i).
  { intros i Hi. unfold loadBatch.
    destruct (getBatch reads j) as [e | b] eqn:Hread; [done |]. cbn.
    destruct (decide (i = j)) as [-> | Hne].
    - destruct Hi as [? | [e He]]; [done | congruence].
    - by rewrite !lookup_insert_ne. }
  split; [| split].
  - intros i b Hin Hread.
    destruct (decide (i ∈ rest)) as [Hrest | Hrest]; [by apply Hload |].
    apply elem_of_cons in Hin as [-> | Hin]; [| done].
    destruct (Hkeep j (or_introl Hrest)) as [-> ->].
    unfold loadBatch. rewrite Hread. cbn. by rewrite !lookup_insert_eq.
  - intros i Hi.
    assert (Hrest : i ∉ rest ∨ (∃ e, getBatch reads i = inl e)).
    { destruct Hi as [Hi | Hi]; [left | by right].
      by apply not_elem_of_cons in Hi as [_ Hi]. }
    destruct (Hkeep i Hrest) as [-> ->]. apply Hj.
    destruct Hi as [Hi | Hi]; [left | by right].
    by apply not_elem_of_cons in Hi as [Hi _].
  - rewrite Hstore. unfold loadBatch. by destruct (getBatch reads j).
Qed.

(** X15.  [initialize] reads the ledger's batch index [n] and loads the
    batches 0 … n-1: every batch the ledger returns is filed under its index
    in both histories (replacing what was there), a batch whose read fails is
    skipped without aborting the others, and indices outside 0 … n-1 and all
    balances are untouched. *)
Theorem initialize_loads_readable_batches reads s n :
  getCurrentBatchIndex reads = inr n →
  ∃ s', initialize reads s = (inr tt, s')
        ∧ (∀ i b, 0 ≤ i < n → getBatch reads i = inr b →
                  stateHistory s' !! i = Some (cbStateRoot b)
                  ∧ batchHistory s' !! i = Some (entryOf i b))
        ∧ (∀ i, (i < 0 ∨ n ≤ i) ∨ (∃ e, getBatch reads i = inl e) →
                stateHistory s' !! i = stateHistory s !! i
                ∧ batchHistory s' !! i = batchHistory s !! i)
        ∧ stateStorage s' = stateStorage s.
Proof.
  intros Hn. unfold initialize. rewrite Hn. eexists. split; [done |].
  destruct (loadBatches_lookup reads (seqZ 0 n) s) as (Hload & Hkeep & Hst).
  split; [| split; [| exact Hst]].
  - intros i b Hi. apply Hload. apply elem_of_seqZ. lia.
  - intros i [Hi | Hi]; apply Hkeep; [left | by right].
    rewrite elem_of_seqZ. lia.
Qed.

Lemma initialize_loads_readable_batches_witness :
  getCurrentBatchIndex sixBatches = inr 6
  ∧ ∃ s', initialize sixBatches StateManager.new = (inr tt, s')
          ∧ stateHistory s' !! 5 = Some "5"
          ∧ stateHistory s' !! 2 = None
          ∧ stateHistory s' !! 6 = None.
Proof.
  split; [reflexivity |].
  destruct (initialize_loads_readable_batches sixBatches StateManager.new 6
              eq_refl) as (s' & Hrun & Hload & Hkeep & _).
  exists s'. split; [exact Hrun |]. split.
  - refine (proj1 (Hload 5 _ _ eq_refl)). lia.
  - split.
    + rewrite (proj1 (Hkeep 2 (or_intror (ex_intro _ _ eq_refl)))).
      reflexivity.
    + assert (H6 : 6 < 0 ∨ 6 ≤ 6) by lia.
      rewrite (proj1 (Hkeep 6 (or_introl H6))). reflexivity.
Defined.

Lemma collectBatches_ok reads s indices :
  (∀ i, i ∈ indices → batchHistory s !! i = None →
        ∃ b, getBatch reads i = inr b) →
  ∃ batches,
    collectBatches reads s indices = inr batches
    ∧ bBatchIndex <$> batches = indices
    ∧ ∀ batch, batch ∈ batches →
        match batchHistory s !! bBatchIndex batch with
        | Some local =>
            stateRoot batch = stateRoot local
            ∧ transactionHashes batch = transactionHashes local
            ∧ timestamp batch = timestamp local
            ∧ finalized batch = finalized local
        | None =>
            ∃ b, getBatch reads (bBatchIndex batch) = inr b
                 ∧ batch = entryOf (bBatchIndex batch) b
        end.
Proof.
  induction indices as [| i rest IH]; intros Hreads; cbn.
  { exists []. split; [done |]. split; [done |]. intros b Hin. inversion Hin. }
  destruct IH as (batches & -> & Hidx & Hall).
  { intros j Hj. apply Hreads. by right. }
  destruct (batchHistory s !! i) as [local |] eqn:Hlocal.
  - eexists. split; [done |]. cbn. split; [by rewrite Hidx |].
    intros batch Hin. apply elem_of_cons in Hin as [-> | Hin]; [| by apply Hall].
    cbn. by rewrite Hlocal.
  - destruct (Hreads i (list_elem_of_here _ _) Hlocal) as [b Hb]. rewrite Hb.
    eexists. split; [done |]. cbn. split; [by rewrite Hidx |].
    intros batch Hin. apply elem_of_cons in Hin as [-> | Hin]; [| by apply Hall].
    cbn. rewrite Hlocal. by exists b.
Qed.

(** X16.  [getLatestBatches(count)] answers with the batches
    [current-1, current-2, …] down to [max(0, current-count)], newest first,
    provided every batch in that range is either in the local batch history
    or readable from the ledger; a batch that is in the local history is
    taken from there, the others are what the ledger returns. *)
Theorem getLatestBatches_newest_first reads count s current :
  getCurrentBatchIndex reads = inr current →
  let startBatch := Z.max 0 (current - count) in
  (∀ i, startBatch ≤ i < current → batchHistory s !! i = None →
        ∃ b, getBatch reads i = inr b) →
  ∃ batches,
    getLatestBatches reads count s = inr batches
    ∧ bBatchIndex <$> batches
      = reverse (seqZ startBatch (current - startBatch))
    ∧ ∀ batch, batch ∈ batches →
        match batchHistory s !! bBatchIndex batch with
        | Some local =>
            stateRoot batch = stateRoot local
            ∧ transactionHashes batch = transactionHashes local
            ∧ timestamp batch = timestamp local
            ∧ finalized batch = finalized local
        | None =>
            ∃ b, getBatch reads (bBatchIndex batch) = inr b
                 ∧ batch = entryOf (bBatchIndex batch) b
        end.
Proof.
  intros Hcur startBatch Hreads. unfold getLatestBatches. rewrite Hcur.
  fold startBatch.
  destruct (collectBatches_ok reads s
              (seqZ startBatch (current - startBatch)))
    as (batches & -> & Hidx & Hall).
  { intros i Hi. apply Hreads. apply elem_of_seqZ in Hi. lia. }
  eexists. split; [done |]. split.
  - by rewrite fmap_reverse, Hidx.
  - intros batch Hin. apply Hall.
    exact (proj1 (elem_of_reverse _ _) Hin).
Qed.

(** When a batch of the requested range is neither known locally nor
    readable, the whole query fails with that read's error. *)
Lemma collectBatches_failure reads s indices i e :
  i ∈ indices →
  batchHistory s !! i = None →
  getBatch reads i = inl e →
  ∃ e', collectBatches reads s indices = inl e'.
Proof.
  intros Hin Hlocal Hread.
  induction indices as [| j rest IH]; [inversion Hin |]. cbn.
  apply elem_of_cons in Hin as [<- | Hin].
  - rewrite Hlocal, Hread. by eexists.
  - destruct (IH Hin) as [e' ->].
    destruct (batchHistory s !! j);
      [by eexists | destruct (getBatch reads j); by eexists].
Qed.

Lemma getLatestBatches_newest_first_witness :
  getCurrentBatchIndex sixBatches = inr 6
  ∧ (∀ i, Z.max 0 (6 - 3) ≤ i < 6 →
        batchHistory StateManager.new !! i = None →
        ∃ b, getBatch sixBatches i = inr b)
  ∧ ∃ batches,
      getLatestBatches sixBatches 3 StateManager.new = inr batches
      ∧ bBatchIndex <$> batches = [5; 4; 3].
Proof.
  assert (Hreads : ∀ i, Z.max 0 (6 - 3) ≤ i < 6 →
            batchHistory StateManager.new !! i = None →
            ∃ b, getBatch sixBatches i = inr b).
  { intros i Hi _. cbn. rewrite bool_decide_eq_false_2 by lia. by eexists. }
  split; [reflexivity |]. split; [exact Hreads |].
  destruct (getLatestBatches_newest_first sixBatches 3 StateManager.new 6
              eq_refl Hreads) as (batches & Hrun & Hidx & _).
  exists batches. split; [exact Hrun | exact Hidx].
Defined.

(** *** Balances *)

Section Balances.

Variable toLowerCase : string → string.
Variable BigInt : string → option Z.
Variable toString : Z → string.

Local Abbreviation balanceOf := (getBalance toLowerCase).
Local Abbreviation store := (setBalance toLowerCase).
Local Abbreviation apply1 := (applyTransition toLowerCase BigInt toString).

(** X17.  Balances are keyed by the lower-cased address: a balance written
    for an address is read back under every spelling with the same
    lower-casing (an empty string reads back as "0"), other addresses keep
    their balance, and an address never written has balance "0". *)
Theorem balance_store_is_case_insensitive address other balance s :
  (toLowerCase other = toLowerCase address →
   balanceOf other (store address balance s)
   = if BatchProcessor.truthy balance then balance else "0")
  ∧ (toLowerCase other ≠ toLowerCase address →
     balanceOf other (store address balance s) = balanceOf other s)
  ∧ (stateStorage s !! toLowerCase other = None → balanceOf other s = "0")
  ∧ stateHistory (store address balance s) = stateHistory s
  ∧ batchHistory (store address balance s) = batchHistory s.
Proof.
  unfold getBalance, setBalance. cbn. repeat split.
  - intros ->. by rewrite lookup_insert_eq.
  - intros Hne. by rewrite lookup_insert_ne.
  - by intros ->.
Qed.

(** X18.  A successful transition between two different accounts whose
    sender can afford the value debits the sender by the value and credits
    the recipient by the same value; no other balance and neither history
    changes. *)
Theorem applyTransition_moves_value transition s fromBalance toBalance :
  success transition = true →
  BigInt (balanceOf (from transition) s) = Some fromBalance →
  BigInt (balanceOf (to transition) s) = Some toBalance →
  toLowerCase (from transition) ≠ toLowerCase (to transition) →
  value transition ≤ fromBalance →
  ∃ s', applyTransition toLowerCase BigInt toString transition s
          = (inr tt, s')
        ∧ stateStorage s' !! toLowerCase (from transition)
          = Some (toString (fromBalance - value transition))
        ∧ stateStorage s' !! toLowerCase (to transition)
          = Some (toString (toBalance + value transition))
        ∧ (∀ a, a ≠ toLowerCase (from transition) →
                a ≠ toLowerCase (to transition) →
                stateStorage s' !! a = stateStorage s !! a)
        ∧ stateHistory s' = stateHistory s
        ∧ batchHistory s' = batchHistory s.
Proof.
  intros Hok Hfrom Hto Hne Hle. unfold applyTransition.
  rewrite Hok, Hfrom, Hto, (proj2 (Z.geb_le _ _) Hle).
  eexists. split; [done |]. unfold setBalance. cbn.
  split; [by rewrite lookup_insert_ne, lookup_insert_eq |].
  split; [by rewrite lookup_insert_eq |]. split; [| done].
  intros a Ha Hb. by rewrite !lookup_insert_ne.
Qed.

(** X19.  A successful transition whose sender and recipient are the same
    account (up to letter case) and which the account can afford leaves the
    account with its balance plus the value: the credit overwrites the
    debit. *)
Theorem applyTransition_self_transfer_credits transition s balance :
  success transition = true →
  toLowerCase (from transition) = toLowerCase (to transition) →
  BigInt (balanceOf (from transition) s) = Some balance →
  value transition ≤ balance →
  ∃ s', applyTransition toLowerCase BigInt toString transition s
          = (inr tt, s')
        ∧ stateStorage s' !! toLowerCase (from transition)
          = Some (toString (balance + value transition))
        ∧ ∀ a, a ≠ toLowerCase (from transition) →
               stateStorage s' !! a = stateStorage s !! a.
Proof.
  intros Hok Hsame Hfrom Hle. unfold applyTransition.
  assert (Hto : BigInt (balanceOf (to transition) s) = Some balance).
  { unfold getBalance in *. by rewrite <- Hsame. }
  rewrite Hok, Hfrom, Hto, (proj2 (Z.geb_le _ _) Hle).
  eexists. split; [done |]. unfold setBalance. cbn. rewrite <- Hsame.
  split; [by rewrite lookup_insert_eq |].
  intros a Ha. by rewrite !lookup_insert_ne.
Qed.


End Balances.

Lemma applyTransition_moves_value_witness :
  let t := pay carol dave 30 true in
  success t = true
  ∧ parseDecimal (getBalance lowerAscii (from t) funded) = Some 100
  ∧ parseDecimal (getBalance lowerAscii (to t) funded) = Some 5
  ∧ lowerAscii (from t) ≠ lowerAscii (to t)
  ∧ value t ≤ 100
  ∧ ∃ s', applyTransition lowerAscii parseDecimal JS.numberToString t funded
            = (inr tt, s')
          ∧ getBalance lowerAscii carol s' = "70"
          ∧ getBalance lowerAscii dave s' = "35".
Proof.
  intros t.
  assert (Hne : lowerAscii (from t) ≠ lowerAscii (to t)) by (by vm_compute).
  assert (Hle : value t ≤ 100) by (cbn; lia).
  split; [reflexivity |]. split; [reflexivity |]. split; [reflexivity |].
  split; [exact Hne |]. split; [exact Hle |].
  destruct (applyTransition_moves_value lowerAscii parseDecimal
              JS.numberToString t funded 100 5 eq_refl eq_refl eq_refl
              Hne Hle) as (s' & Hrun & Hfrom & Hto & _).
  exists s'. split; [exact Hrun |]. unfold getBalance.
  change (lowerAscii carol) with (lowerAscii (from t)).
  change (lowerAscii dave) with (lowerAscii (to t)).
  rewrite Hfrom, Hto. split; reflexivity.
Defined.

Lemma applyTransition_self_transfer_credits_witness :
  let t := pay carol (lowerAscii carol) 30 true in
  success t = true
  ∧ lowerAscii (from t) = lowerAscii (to t)
  ∧ parseDecimal (getBalance lowerAscii (from t) funded) = Some 100
  ∧ value t ≤ 100
  ∧ ∃ s', applyTransition lowerAscii parseDecimal JS.numberToString t funded
            = (inr tt, s')
          ∧ getBalance lowerAscii carol s' = "130".
Proof.
  intros t.
  assert (Hle : value t ≤ 100) by (cbn; lia).
  split; [reflexivity |]. split; [reflexivity |]. split; [reflexivity |].
  split; [exact Hle |].
  destruct (applyTransition_self_transfer_credits lowerAscii parseDecimal
              JS.numberToString t funded 100 eq_refl eq_refl eq_refl Hle)
    as (s' & Hrun & Hfrom & _).
  exists s'. split; [exact Hrun |]. unfold getBalance.
  change (lowerAscii carol) with (lowerAscii (from t)).
  rewrite Hfrom. reflexivity.
Defined.

End StateManagerMore.

(** ** Merkle tree and state roots *)

Module MerkleProps.

Import Merkle Fixtures MoreFixtures.

Section Tree.

Variable toUtf8Bytes : string → list Byte.byte.
Variable keccak256 : list Byte.byte → string.
Variable JSON_stringify : Transaction → string.

Local Abbreviation H := (λ s : string, keccak256 (toUtf8Bytes s)).
Local Abbreviation next := (nextLayer toUtf8Bytes keccak256).
Local Abbreviation build := (buildFrom toUtf8Bytes keccak256).
Local Abbreviation tree := (Merkle.new toUtf8Bytes keccak256).
Local Abbreviation verify := (verifyProof toUtf8Bytes keccak256).

(** A layer with at least two nodes is followed by a strictly shorter,
    non-empty one of half the size (rounded up). *)
Lemma nextLayer_length layer :
  length (next layer) = Nat.div2 (S (length layer)).
Proof.
  assert (Hgen : ∀ n l, (length l ≤ n)%nat →
                        length (next l) = Nat.div2 (S (length l))).
  { induction n as [| n IH]; intros [| a [| b l]] Hlen; cbn in *;
      try done; try lia.
    rewrite IH by lia. done. }
  by apply (Hgen (length layer)).
Qed.

Lemma div2_succ_bounds n :
  (2 ≤ n → 1 ≤ Nat.div2 (S n) < n)%nat.
Proof.
  intros Hn. pose proof (Nat.div2_odd (S n)) as Hodd.
  destruct (Nat.odd (S n)); cbn [Nat.b2n] in Hodd; lia.
Qed.

Lemma buildFrom_root fuel layer :
  (length layer ≤ fuel)%nat → layer ≠ [] →
  ∃ root, last (layer :: build fuel layer) = Some [root].
Proof.
  revert layer. induction fuel as [| fuel IH]; intros layer Hlen Hne.
  { destruct layer; [done | cbn in Hlen; lia]. }
  cbn [buildFrom]. case_bool_decide as Hlong.
  - rewrite last_cons.
    destruct (IH (next layer)) as [root Hroot].
    + rewrite nextLayer_length. pose proof (div2_succ_bounds _ Hlong). lia.
    + pose proof (div2_succ_bounds _ Hlong) as Hhalf.
      rewrite <- nextLayer_length in Hhalf.
      intros Hnil. rewrite Hnil in Hhalf. cbn in Hhalf. lia.
    + rewrite Hroot. by exists root.
  - destruct layer as [| root [| b rest]]; [done | by exists root |].
    cbn in Hlong. lia.
Qed.

Lemma buildFrom_enough fuel1 fuel2 layer :
  (length layer ≤ fuel1)%nat → (length layer ≤ fuel2)%nat →
  build fuel1 layer = build fuel2 layer.
Proof.
  revert fuel2 layer.
  induction fuel1 as [| fuel1 IH]; intros fuel2 layer H1 H2.
  { destruct layer; [| cbn in H1; lia]. destruct fuel2; [done |]. cbn.
    by rewrite bool_decide_eq_false_2 by lia. }
  cbn [buildFrom]. case_bool_decide as Hlong.
  - destruct fuel2 as [| fuel2]; [lia |]. cbn [buildFrom].
    rewrite bool_decide_eq_true_2 by done. f_equal.
    pose proof (div2_succ_bounds _ Hlong).
    apply IH; rewrite nextLayer_length; lia.
  - destruct fuel2; [done |]. cbn. by rewrite bool_decide_eq_false_2.
Qed.

Lemma buildFrom_ends_in_one_node leaves :
  (leaves ≠ [] →
   ∃ root, getRoot (tree leaves) = Some root
           ∧ last (layers (tree leaves)) = Some [root])
  ∧ (∀ fuel, (length leaves ≤ fuel)%nat →
             build fuel leaves = build (length leaves) leaves)
  ∧ getRoot (tree []) = None.
Proof.
  split; [| split; [| done]].
  - intros Hne. destruct (buildFrom_root (length leaves) leaves) as [r Hr];
      [done | done |].
    exists r. unfold getRoot, Merkle.new. cbn [layers]. by rewrite Hr.
  - intros fuel Hfuel. by apply buildFrom_enough.
Qed.

(** X21.  Building a tree over a non-empty list of leaves always ends with
    a layer of exactly one node, which [getRoot] returns: the loop stops
    because the layer has shrunk to one node, and allowing it more rounds
    than there are leaves changes nothing.  Over no leaves there is no
    root. *)
Theorem merkle_tree_has_a_root leaves :
  (leaves ≠ [] →
   ∃ root, getRoot (tree leaves) = Some root
           ∧ last (layers (tree leaves)) = Some [root])
  ∧ (∀ fuel, (length leaves ≤ fuel)%nat →
             build fuel leaves = build (length leaves) leaves)
  ∧ getRoot (tree []) = None.
Proof. apply buildFrom_ends_in_one_node. Qed.

(** X22.  [calculateStateRoot] always yields a root, and for a batch without
    transactions it is the previous root itself, so [verifyStateRoot] of an
    empty batch succeeds exactly when the expected root is the previous
    one. *)
Theorem calculateStateRoot_of_empty_batch transactions previousRoot :
  (∃ root, calculateStateRoot toUtf8Bytes keccak256 JSON_stringify
             transactions previousRoot = Some root)
  ∧ calculateStateRoot toUtf8Bytes keccak256 JSON_stringify [] previousRoot
    = Some previousRoot
  ∧ ∀ expectedRoot,
      verifyStateRoot toUtf8Bytes keccak256 JSON_stringify [] previousRoot
        expectedRoot
      = bool_decide (previousRoot = expectedRoot).
Proof.
  split; [| split; [done |]].
  - unfold calculateStateRoot.
    destruct (proj1 (buildFrom_ends_in_one_node
                       (previousRoot ::
                        (BatchProcessor.generateTransactionHash JSON_stringify
                           toUtf8Bytes keccak256 <$> transactions))))
      as (root & Hroot & _); [done |].
    by exists root.
  - intros expectedRoot. unfold verifyStateRoot.
    apply bool_decide_ext. cbn. split; [by intros [= ->] | by intros ->].
Qed.

Lemma slice_init {A} (l : list A) :
  JS.slice 0 (Some (-1)) l = take (length l - 1) l.
Proof.
  unfold JS.slice, JS.relIndex.
  rewrite (proj2 (Z.ltb_ge 0 0)) by lia.
  rewrite (proj2 (Z.ltb_lt (-1) 0)) by lia.
  rewrite (Z.min_l 0) by lia. rewrite Z.sub_0_r.
  change (Z.to_nat 0) with 0%nat. rewrite drop_0. f_equal. lia.
Qed.

Lemma truthy_nonempty s : s ≠ "" → BatchProcessor.truthy s = true.
Proof.
  intros Hs. unfold BatchProcessor.truthy. apply negb_true_iff.
  by apply String.eqb_neq.
Qed.

Lemma nextLayer_nonempty_nodes layer :
  (∀ bytes, keccak256 bytes ≠ "") → Forall (λ node, node ≠ "") (next layer).
Proof.
  intros Hhash.
  assert (Hgen : ∀ n l, (length l ≤ n)%nat →
                        Forall (λ node, node ≠ "") (next l)).
  { induction n as [| n IH]; intros [| a [| b l]] Hlen; cbn in *;
      try lia; repeat constructor; try apply Hhash.
    apply IH. lia. }
  by apply (Hgen (length layer)).
Qed.

Lemma leftmost_path k : ∀ layer fuel leaf,
  length layer = (2 ^ k)%nat →
  (length layer ≤ fuel)%nat →
  (∀ bytes, keccak256 bytes ≠ "") →
  Forall (λ node, node ≠ "") layer →
  head layer = Some leaf →
  ∃ root,
    last (layer :: build fuel layer) = Some [root]
    ∧ foldl (λ currentHash sibling, H (currentHash +:+ sibling)) leaf
        (proofFrom (take (length (build fuel layer))
                      (layer :: build fuel layer)) 0)
      = root.
Proof.
  induction k as [| k IH]; intros layer fuel leaf Hlen Hfuel Hhash Hnodes Hleaf.
  - destruct layer as [| x [| y rest]]; cbn in Hlen; try lia.
    injection Hleaf as ->. destruct fuel; [cbn in Hfuel; lia |].
    exists leaf. by cbn.
  - assert (Hpow : (1 ≤ 2 ^ k)%nat)
      by (apply Nat.neq_0_lt_0, Nat.pow_nonzero; lia).
    rewrite Nat.pow_succ_r' in Hlen.
    destruct layer as [| a [| b rest]]; cbn in Hlen; try lia.
    injection Hleaf as ->.
    destruct fuel as [| fuel]; [cbn in Hfuel; lia |].
    cbn [buildFrom]. rewrite bool_decide_eq_true_2 by (cbn; lia).
    apply Forall_cons in Hnodes as [Ha Hnodes].
    apply Forall_cons in Hnodes as [Hb Hnodes].
    set (upper := next (leaf :: b :: rest)).
    assert (Hupper : upper = H (leaf +:+ b) :: next rest).
    { subst upper. cbn. by rewrite truthy_nonempty. }
    destruct (IH upper fuel (H (leaf +:+ b))) as (root & Hlast & Hfold).
    + subst upper. rewrite nextLayer_length. cbn [length].
      replace (S (S (S (length rest)))) with (S (2 * (2 ^ k)))%nat by lia.
      rewrite Nat.div2_succ_double. done.
    + subst upper. rewrite nextLayer_length. cbn [length] in *.
      replace (S (S (S (length rest)))) with (S (2 * (2 ^ k)))%nat by lia.
      rewrite Nat.div2_succ_double. lia.
    + done.
    + by apply nextLayer_nonempty_nodes.
    + by rewrite Hupper.
    + exists root. split.
      * by rewrite last_cons, Hlast.
      * cbn [length take proofFrom]. cbn. exact Hfold.
Qed.

(** X23.  In a tree over 2^k non-empty leaves (with a digest function that
    never returns the empty string) the proof [getProof(0)] of the first leaf
    verifies against the root. *)
Theorem first_leaf_proof_verifies k leaves leaf :
  length leaves = (2 ^ k)%nat →
  (∀ bytes, keccak256 bytes ≠ "") →
  Forall (λ node, node ≠ "") leaves →
  head leaves = Some leaf →
  ∃ root, getRoot (tree leaves) = Some root
          ∧ verify leaf (getProof (tree leaves) 0) root = true.
Proof.
  intros Hlen Hhash Hnodes Hleaf.
  destruct (leftmost_path k leaves (length leaves) leaf Hlen (le_n _) Hhash
              Hnodes Hleaf) as (root & Hlast & Hfold).
  exists root. unfold getRoot, getProof, verifyProof, Merkle.new.
  cbn [layers]. rewrite Hlast. split; [done |].
  rewrite slice_init. cbn [length]. rewrite Nat.sub_1_r. cbn [Nat.pred].
  by rewrite Hfold, bool_decide_eq_true_2.
Qed.

(** X24.  In a tree over two leaves the proof [getProof(1)] of the second
    leaf is the first leaf, and [verifyProof] hashes the pair in the order
    (second, first) whereas the root was built from (first, second): whenever
    those two digests differ, the second leaf's proof does not verify. *)
Theorem second_leaf_proof_is_rejected a b :
  b ≠ "" →
  H (b +:+ a) ≠ H (a +:+ b) →
  getRoot (tree [a; b]) = Some (H (a +:+ b))
  ∧ getProof (tree [a; b]) 1 = [a]
  ∧ verify b (getProof (tree [a; b]) 1) (H (a +:+ b)) = false.
Proof.
  intros Hb Hswap.
  assert (Hlayers : layers (tree [a; b]) = [[a; b]; [H (a +:+ b)]]).
  { unfold Merkle.new. cbn. by rewrite truthy_nonempty. }
  unfold getRoot, getProof, verifyProof. rewrite Hlayers.
  split; [done |]. split; [done |].
  cbn. by rewrite bool_decide_eq_false_2.
Qed.

End Tree.

Lemma first_leaf_proof_verifies_witness :
  let leaves := ["a"; "b"; "c"; "d"] in
  length leaves = (2 ^ 2)%nat
  ∧ (∀ bytes, taggedDigest bytes ≠ "")
  ∧ Forall (λ node, node ≠ "") leaves
  ∧ head leaves = Some "a"
  ∧ ∃ root, getRoot (Merkle.new utf8 taggedDigest leaves) = Some root
            ∧ verifyProof utf8 taggedDigest "a"
                (getProof (Merkle.new utf8 taggedDigest leaves) 0) root
              = true.
Proof.
  intros leaves.
  assert (Hhash : ∀ bytes, taggedDigest bytes ≠ "") by (intros bytes; done).
  assert (Hnodes : Forall (λ node, node ≠ "") leaves)
    by (repeat (apply Forall_cons; split; [done |]); apply Forall_nil_2).
  split; [reflexivity |]. split; [exact Hhash |]. split; [exact Hnodes |].
  split; [reflexivity |].
  exact (first_leaf_proof_verifies utf8 taggedDigest 2 leaves "a" eq_refl
           Hhash Hnodes eq_refl).
Defined.

Lemma second_leaf_proof_is_rejected_witness :
  "b" ≠ ""
  ∧ taggedDigest (utf8 ("b" +:+ "a")) ≠ taggedDigest (utf8 ("a" +:+ "b"))
  ∧ getRoot (Merkle.new utf8 taggedDigest ["a"; "b"])
    = Some (taggedDigest (utf8 ("a" +:+ "b")))
  ∧ getProof (Merkle.new utf8 taggedDigest ["a"; "b"]) 1 = ["a"]
  ∧ verifyProof utf8 taggedDigest "b"
      (getProof (Merkle.new utf8 taggedDigest ["a"; "b"]) 1)
      (taggedDigest (utf8 ("a" +:+ "b"))) = false.
Proof.
  assert (Hb : "b" ≠ "") by done.
  assert (Hswap : taggedDigest (utf8 ("b" +:+ "a"))
                  ≠ taggedDigest (utf8 ("a" +:+ "b"))) by (by vm_compute).
  split; [exact Hb |]. split; [exact Hswap |].
  exact (second_leaf_proof_is_rejected utf8 taggedDigest "a" "b" Hb Hswap).
Defined.

End MerkleProps.

(** ** ProofGenerator: further properties *)

Module ProofGeneratorMore.

Import ProofGenerator Fixtures.

(** X25.  While a request for a batch index is waiting for the prover, a
    second request for the same index that is not answered by the cache is
    given the first request's promise, whatever transactions it carries: the
    prover has been called once, for the first request, and the generator
    state is not changed by the second request. *)
Theorem concurrent_requests_share_one_prover_call
    transactionsA transactionsB batchIndex s :
  proofCache s !! generateCacheKey transactionsA batchIndex = None →
  proofCache s !! generateCacheKey transactionsB batchIndex = None →
  pendingProofs s !! batchIndex = None →
  let first := generateProof_start transactionsA batchIndex s in
  let second := generateProof_start transactionsB batchIndex first.2 in
  first.1 = Invoked (length (proverCalls s))
              (generateCacheKey transactionsA batchIndex)
  ∧ second.1 = Joined (length (proverCalls s))
  ∧ second.2 = first.2
  ∧ proverCalls second.2 = proverCalls s ++ [(transactionsA, batchIndex)]
  ∧ getPendingProofsCount second.2 = S (getPendingProofsCount s).
Proof.
  intros HmissA HmissB Hidle.
  assert (Hfirst :
    generateProof_start transactionsA batchIndex s
    = (Invoked (length (proverCalls s))
         (generateCacheKey transactionsA batchIndex),
       {| pendingProofs :=
            <[batchIndex := length (proverCalls s)]> (pendingProofs s);
          proofCache := proofCache s;
          proverCalls := proverCalls s ++ [(transactionsA, batchIndex)] |})).
  { unfold generateProof_start. by rewrite HmissA, Hidle. }
  cbn zeta. rewrite Hfirst. cbn [fst snd].
  unfold generateProof_start. cbn [proofCache pendingProofs proverCalls].
  rewrite HmissB, lookup_insert_eq. cbn [fst snd proverCalls].
  do 4 (split; [done |]).
  unfold getPendingProofsCount. cbn [pendingProofs].
  by apply map_size_insert_None.
Qed.

Lemma concurrent_requests_share_one_prover_call_witness :
  let s := ProofGenerator.new in
  let first := generateProof_start [tx1] 5 s in
  let second := generateProof_start [tx2] 5 first.2 in
  proofCache s !! generateCacheKey [tx1] 5 = None
  ∧ proofCache s !! generateCacheKey [tx2] 5 = None
  ∧ pendingProofs s !! 5 = None
  ∧ first.1 = Invoked 0%nat (generateCacheKey [tx1] 5)
  ∧ second.1 = Joined 0%nat
  ∧ second.2 = first.2
  ∧ proverCalls second.2 = [([tx1], 5)]
  ∧ getPendingProofsCount second.2 = 1%nat.
Proof.
  intros s first second.
  split; [reflexivity |]. split; [reflexivity |]. split; [reflexivity |].
  exact (concurrent_requests_share_one_prover_call [tx1] [tx2] 5 s
           eq_refl eq_refl eq_refl).
Defined.

(** X26.  A request the prover has answered is cached under its key: the
    same request made again is answered with the same proof without a
    prover call, until [clearCache] is called, after which it goes to the
    prover again.  [clearCache] does not touch the requests in flight. *)
Theorem cache_serves_until_cleared
    transactions batchIndex proof outcome s :
  proofCache s !! generateCacheKey transactions batchIndex = None →
  pendingProofs s !! batchIndex = None →
  let s1 := (generateProof transactions batchIndex (inr proof) s).2 in
  let again := generateProof transactions batchIndex outcome s1 in
  let afterClear :=
    generateProof transactions batchIndex outcome (clearCache s1) in
  again = (Settled (inr proof), s1)
  ∧ getCacheSize s1 = S (getCacheSize s)
  ∧ afterClear.1 = Settled outcome
  ∧ proverCalls afterClear.2
    = proverCalls s ++ [(transactions, batchIndex);
                        (transactions, batchIndex)]
  ∧ getCacheSize (clearCache s1) = 0%nat
  ∧ pendingProofs (clearCache s1) = pendingProofs s1.
Proof.
  intros Hmiss Hidle. cbn zeta.
  rewrite (ProofGeneratorProps.generateProof_miss transactions batchIndex
             (inr proof) s Hmiss Hidle).
  cbn [snd]. set (s1 := {| pendingProofs := _ |}).
  split.
  { apply ProofGeneratorProps.generateProof_cache_hit. subst s1. cbn.
    apply lookup_insert_eq. }
  split.
  { unfold getCacheSize. subst s1. cbn. by apply map_size_insert_None. }
  rewrite (ProofGeneratorProps.generateProof_miss transactions batchIndex
             outcome (clearCache s1)) by (subst s1; done).
  subst s1. cbn. split; [done |]. split; [by rewrite <- app_assoc |]. done.
Qed.

Lemma cache_serves_until_cleared_witness :
  let s := ProofGenerator.new in
  let s1 := (generateProof [tx1] 5 (inr proofA) s).2 in
  proofCache s !! generateCacheKey [tx1] 5 = None
  ∧ pendingProofs s !! 5 = None
  ∧ generateProof [tx1] 5 (inr proofB) s1 = (Settled (inr proofA), s1)
  ∧ getCacheSize s1 = 1%nat
  ∧ (generateProof [tx1] 5 (inr proofB) (clearCache s1)).1
    = Settled (inr proofB).
Proof.
  intros s s1.
  split; [reflexivity |]. split; [reflexivity |].
  destruct (cache_serves_until_cleared [tx1] 5 proofA (inr proofB) s
              eq_refl eq_refl) as (Hagain & Hsize & Hclear & _).
  split; [exact Hagain |]. split; [exact Hsize | exact Hclear].
Defined.

End ProofGeneratorMore.

(** ** Logger *)

Module LoggerProps.

Import Logger.

(** X27.  A call of a logging method records exactly one entry, at the end
    of the log, when the level of the method is at least as severe as the
    logger's level in the order DEBUG < INFO < WARN < ERROR < FATAL, and
    records nothing otherwise; the entry carries the time, the level, the
    message and the context, and the error object only for [error] and
    [fatal].  The logger's level is never changed by logging. *)
Theorem logging_respects_the_level l now message context e lg :
  logs (emit l now message context e lg)
  = (if bool_decide (rank (logLevel lg) ≤ rank l)%nat then
       logs lg ++ [{| timestamp := now; level := l; message := message;
                      context := context;
                      err := if carriesError l then e else None |}]
     else logs lg)
  ∧ logLevel (emit l now message context e lg) = logLevel lg.
Proof.
  destruct lg as [threshold entries].
  destruct l, threshold; split; reflexivity.
Qed.

End LoggerProps.

(** ** RollupSequencer: timer and counters *)

Module SequencerLifecycleProps.

Import Sequencer SequencerLifecycle.

Lemma timerInvariant_step n ev : timerInvariant n → timerInvariant (step n ev).
Proof.
  intros Hinv. pose proof Hinv as [Htimers Hrun].
  destruct ev as [| | outcome now | outcome now]; cbn.
  - unfold start. destruct (isRunning (rollupSequencer n)) eqn:Hr;
      [exact Hinv |].
    assert (Hnone : intervalId n = None).
    { destruct (intervalId n) as [id |] eqn:Hid; [| done].
      destruct Hrun as [_ Hrun]. by specialize (Hrun (mk_is_Some _ _ eq_refl)). }
    split; cbn; [| split; [by eexists | done]].
    rewrite Htimers, Hnone. cbn. apply union_empty_r_L.
  - unfold stop. destruct (isRunning (rollupSequencer n)) eqn:Hr;
      [| exact Hinv].
    cbn. destruct (intervalId n) as [id |] eqn:Hid; cbn.
    + split; cbn; [rewrite Htimers; cbn; apply difference_diag_L |].
      split; [done | by intros [? ?]].
    + destruct Hrun as [Hrun _]. by destruct (Hrun eq_refl).
  - unfold processBatch_settle. destruct outcome as [e | proofs];
      [exact Hinv |].
    case_match; exact Hinv.
  - unfold forceBatch_settle. destruct outcome; exact Hinv.
Qed.

(** X28.  Whatever sequence of [start], [stop] and settled cycles a
    sequencer goes through, the runtime holds exactly one timer while the
    sequencer is running — the one stored in [intervalId] — and none while it
    is stopped: starting twice does not register a second timer, and
    stopping always clears the one registered. *)
Theorem sequencer_holds_at_most_one_timer events :
  let n := run events in
  activeTimers n = from_option singleton ∅ (intervalId n)
  ∧ (isRunning (rollupSequencer n) = true ↔ is_Some (intervalId n))
  ∧ (size (activeTimers n)
     = if isRunning (rollupSequencer n) then 1 else 0)%nat.
Proof.
  cbn. unfold run.
  assert (Hinv : timerInvariant (foldl step SequencerLifecycle.new events)).
  { assert (Hnew : timerInvariant SequencerLifecycle.new).
    { split; [done |]. cbn. split; [done | by intros [? ?]]. }
    revert Hnew. generalize SequencerLifecycle.new.
    induction events as [| ev rest IH]; intros n Hn; [done |].
    cbn. apply IH. by apply timerInvariant_step. }
  destruct Hinv as [Htimers Hrun]. split; [done |]. split; [done |].
  rewrite Htimers.
  destruct (isRunning (rollupSequencer _)) eqn:Hr.
  - destruct (proj1 Hrun eq_refl) as [id ->]. cbn. apply size_singleton.
  - destruct (intervalId _) eqn:Hid; [| by cbn].
    destruct Hrun as [_ Hrun]. by specialize (Hrun (mk_is_Some _ _ eq_refl)).
Qed.

(** X29.  [totalBatches] counts the proofs of the cycles that settled
    successfully and nothing else: every timer cycle adds the number of
    proofs it returned, every forced batch adds one, a cycle that failed adds
    nothing, and [start] and [stop] leave the counters alone, so they survive
    a stop and restart. *)
Theorem totalBatches_counts_settled_proofs events :
  totalBatches (rollupSequencer (run events))
  = foldr (λ ev total, produced ev + total) 0 events.
Proof.
  unfold run.
  assert (Hgen : ∀ n,
    totalBatches (rollupSequencer (foldl step n events))
    = totalBatches (rollupSequencer n)
      + foldr (λ ev total, produced ev + total) 0 events).
  { induction events as [| ev rest IH]; intros n; cbn; [lia |].
    rewrite IH.
    assert (Hstep : totalBatches (rollupSequencer (step n ev))
                    = totalBatches (rollupSequencer n) + produced ev).
    { destruct ev as [| | [e | proofs] now | [e | proof] now]; cbn.
      - unfold start. destruct (isRunning _); cbn; lia.
      - unfold stop. destruct (isRunning _); cbn; [| lia].
        destruct (intervalId n); cbn; lia.
      - lia.
      - destruct (0 <? Z.of_nat (length proofs)) eqn:Hpos; cbn; [lia |].
        apply Z.ltb_ge in Hpos. lia.
      - lia.
      - lia. }
    lia. }
  rewrite Hgen. cbn. lia.
Qed.

End SequencerLifecycleProps.

(** ** The settlement contract *)

Module ContractProps.

Import StateManager Fixtures.

Lemma checkTransitions_accepts root index transitions :
  Contract.checkTransitions root index transitions = inr tt
  ↔ rootChainOk root transitions = true
    ∧ pvBatchIndex <$> transitions
      = seqZ index (Z.of_nat (length transitions)).
Proof.
  revert root index.
  induction transitions as [| t rest IH]; intros root index.
  { cbn. split; [done | by intros _]. }
  cbn [Contract.checkTransitions rootChainOk fmap list_fmap length].
  rewrite seqZ_cons by lia.
  replace (Z.pred (Z.of_nat (S (length rest))))
    with (Z.of_nat (length rest)) by lia.
  destruct (decide (oldStateRoot t = root)) as [Hroot | Hroot].
  - rewrite (bool_decide_eq_false_2 (oldStateRoot t ≠ root))
      by (intros H; done).
    rewrite (bool_decide_eq_true_2 (oldStateRoot t = root)) by done.
    destruct (decide (pvBatchIndex t = index)) as [Hidx | Hidx].
    + rewrite (bool_decide_eq_false_2 (pvBatchIndex t ≠ index))
        by (intros H; done).
      rewrite IH. cbn. rewrite Hidx. unfold Z.succ. split.
      * intros [Hchain Hrest]. split; [done |]. by f_equal.
      * intros [Hchain [= Hrest]]. done.
    + rewrite (bool_decide_eq_true_2 (pvBatchIndex t ≠ index)) by done.
      split; [done |]. intros [_ [= H _]]. done.
  - rewrite (bool_decide_eq_true_2 (oldStateRoot t ≠ root)) by done.
    rewrite (bool_decide_eq_false_2 (oldStateRoot t = root)) by done.
    cbn. split; [done | by intros [? _]].
Qed.

(** X30.  For batch indices below the uint256 bound, the contract accepts
    an aggregate exactly when it is not paused, the proof bytes have not been
    processed before, the list is not empty, the verifier accepts, the first
    transition starts at the contract's current root and each later one at
    its predecessor's new root, and the transitions carry the consecutive
    batch indices starting at the contract's current index. *)
Theorem contract_accepts_exactly_intact_aggregates
    c proof transitions vKeyHash :
  0 ≤ Contract.currentBatchIndex c →
  Contract.currentBatchIndex c + Z.of_nat (length transitions) < 2 ^ 256 →
  Contract.submitAggregatedBatch c proof transitions vKeyHash = inr tt
  ↔ Contract.paused c = false
    ∧ (proof ∉ Contract.processedProofs c)
    ∧ transitions ≠ []
    ∧ Contract.verifierAccepts c = true
    ∧ rootChainOk (Contract.currentStateRoot c) transitions = true
    ∧ pvBatchIndex <$> transitions
      = seqZ (Contract.currentBatchIndex c) (Z.of_nat (length transitions)).
Proof.
  intros _ _. unfold Contract.submitAggregatedBatch.
  destruct (Contract.paused c); [split; [done | by intros [? _]] |].
  case_bool_decide as Hseen; [split; [done | by intros (_ & ? & _)] |].
  destruct (Contract.checkTransitions _ _ _) as [e | []] eqn:Hcheck.
  - split; [done |]. intros (_ & _ & _ & _ & Hchain & Hidx).
    assert (Hok : Contract.checkTransitions (Contract.currentStateRoot c)
                    (Contract.currentBatchIndex c) transitions = inr tt)
      by (by apply checkTransitions_accepts).
    congruence.
  - apply checkTransitions_accepts in Hcheck as [Hchain Hidx].
    destruct (Contract.verifierAccepts c); cbn;
      [| split; [done | by intros (_ & _ & _ & ? & _)]].
    case_bool_decide as Hnil; [split; [done | by intros (_ & _ & ? & _)] |].
    done.
Qed.

Lemma contract_accepts_exactly_intact_aggregates_witness :
  let c := Contract.deploy root0 true in
  let transitions :=
    [ {| oldStateRoot := root0; newStateRoot := root1; pvBatchIndex := 0;
         transactionCount := 1; pvTransactionHashes := [] |};
      {| oldStateRoot := root1; newStateRoot := root0; pvBatchIndex := 1;
         transactionCount := 1; pvTransactionHashes := [] |} ] in
  0 ≤ Contract.currentBatchIndex c
  ∧ Contract.currentBatchIndex c + Z.of_nat (length transitions) < 2 ^ 256
  ∧ Contract.submitAggregatedBatch c "00" transitions [] = inr tt
  ∧ rootChainOk (Contract.currentStateRoot c) transitions = true
  ∧ pvBatchIndex <$> transitions = [0; 1].
Proof.
  intros c transitions.
  assert (H0 : 0 ≤ Contract.currentBatchIndex c) by (cbn; lia).
  assert (H1 : Contract.currentBatchIndex c
               + Z.of_nat (length transitions) < 2 ^ 256) by (cbn; lia).
  assert (Hrun : Contract.submitAggregatedBatch c "00" transitions []
                 = inr tt) by (vm_compute; reflexivity).
  split; [exact H0 |]. split; [exact H1 |]. split; [exact Hrun |].
  destruct (proj1 (contract_accepts_exactly_intact_aggregates c "00"
                     transitions [] H0 H1) Hrun)
    as (_ & _ & _ & _ & Hchain & Hidx).
  split; [exact Hchain | exact Hidx].
Defined.

End ContractProps.
